(** * Harmonizer: the MelodyNet constructor and the playback recurrence

  A shallow embedding of [models/mnet.py] (class [MelodyNet]) and of
  [utils/play.py] (function [play_song] and its helpers), with the
  properties of the design document proved or refuted on it.

  Conventions.
  - A torch [float] is idealised as a real number of [R]; rounding,
    infinities and NaN are outside the model.  Division is [Rdiv]; every
    theorem that relies on a quotient also proves the divisor non-zero.
  - The state update of lines 153-154 of [utils/play.py] is given a second
    time in float32 (modules [F32] and [Play32]), with IEEE 754 binary32
    arithmetic; the library reductions [F.softmax] and [sum] are section
    variables there.
  - A Python exception is a value [Raise e] of the type [result].
  - The tables of [utils/data/mappings.py] and the loaded network [hnn]
    are not part of the two files; they are section variables. *)

From Stdlib Require Import Reals Lra Lia ZArith String Ascii List.
From Stdlib Require SpecFloat.
From stdpp Require Import base option list gmap strings.

Local Open Scope R_scope.

(** ** Python values: exceptions, strings, dictionaries *)

Module Py.

(** The built-in exception classes the two files can raise, and
    [UserError cls] for a class a project declares itself. *)
Inductive exn : Type :=
| TypeError
| IndexError
| KeyError
| ValueError
| RuntimeError
| UserError (cls : string).

Inductive result (A : Type) : Type :=
| Ok (a : A)
| Raise (e : exn).
Arguments Ok {A} a.
Arguments Raise {A} e.

#[global] Instance result_ret : MRet result := fun A a => Ok a.
#[global] Instance result_bind : MBind result := fun A B f m =>
  match m with
  | Ok a => f a
  | Raise e => Raise e
  end.

(** [s[:n]] for [n >= 0]: the slice is clamped to the string. *)
Definition slice_to (n : nat) (s : string) : string := String.substring 0 n s.

(** [s[:-1]]: all but the last character (empty stays empty). *)
Fixpoint drop_last (s : string) : string :=
  match s with
  | EmptyString => EmptyString
  | String c EmptyString => EmptyString
  | String c s' => String c (drop_last s')
  end.

(** [s[n]] for [n >= 0]: one character, or IndexError. *)
Definition char_at (n : nat) (s : string) : result string :=
  match String.get n s with
  | Some c => Ok (String c EmptyString)
  | None => Raise IndexError
  end.

(** [d[k]] on a dict. *)
Definition getitem `{Countable K} {V} (d : gmap K V) (k : K) : result V :=
  match d !! k with
  | Some v => Ok v
  | None => Raise KeyError
  end.

End Py.
Import Py.

(** ** Row vectors and matrices of floats *)

Module Tensor.

(** [x.sum()] on one row. *)
Fixpoint vsum (x : list R) : R :=
  match x with
  | [] => 0
  | a :: x' => a + vsum x'
  end.

Definition zeros (n : nat) : list R := repeat 0 n.
Definition ones (n : nat) : list R := repeat 1 n.

Definition scale (c : R) (x : list R) : list R := map (Rmult c) x.

(** [x / s] with [s] a scalar (a [keepdim] sum broadcast over the row). *)
Definition div_scalar (x : list R) (s : R) : list R := map (fun a => a / s) x.

(** [x + y] on the last dimension, with torch's broadcasting rule: equal
    sizes, or one of the two of size one. *)
Definition add (x y : list R) : result (list R) :=
  if Nat.eqb (length x) (length y) then Ok (map (fun p => fst p + snd p) (combine x y))
  else match x, y with
       | [a], _ => Ok (map (fun b => a + b) y)
       | _, [b] => Ok (map (fun a => a + b) x)
       | _, _ => Raise RuntimeError
       end.

(** [F.softmax(x, dim=1)] on one row. *)
Definition softmax (x : list R) : list R :=
  let e := map exp x in div_scalar e (vsum e).

Definition relu (x : list R) : list R := map (fun a => Rmax 0 a) x.

Definition dot (x y : list R) : R :=
  vsum (map (fun p => fst p * snd p) (combine x y)).

(** [torch.eye(n)[i]]: row [i] of the identity. *)
Definition eye_row (n i : nat) : list R :=
  map (fun j => if Nat.eqb i j then 1 else 0) (seq 0 n).

(** [int(np.argmax(x))] on a one-dimensional array: the first index of a
    maximal entry; ValueError on an empty array. *)
Fixpoint argmax_from (best : R) (best_idx idx : nat) (x : list R) : nat :=
  match x with
  | [] => best_idx
  | a :: x' =>
      if Rlt_dec best a then argmax_from a idx (S idx) x'
      else argmax_from best best_idx (S idx) x'
  end.

Definition argmax (x : list R) : result nat :=
  match x with
  | [] => Raise ValueError
  | a :: x' => Ok (argmax_from a 0%nat 1%nat x')
  end.

(** [M[i][j] = v] on a matrix given by its rows. *)
Definition mset (i j : nat) (v : R) (M : list (list R)) : list (list R) :=
  alter (fun row => <[j := v]> row) i M.

(** [M.fill_diagonal_(v)]. *)
Definition fill_diagonal_ (v : R) (M : list (list R)) : list (list R) :=
  imap (fun i row => <[i := v]> row) M.

Definition entry (M : list (list R)) (i j : nat) : option R :=
  M !! i ≫= fun row => row !! j.

End Tensor.
Import Tensor.

(** ** models/mnet.py: the MelodyNet constructor *)

Module Mnet.

(** A [torch.nn] parameter tensor: its values and its [requires_grad] flag.  A
    bias vector is a one-row matrix. *)
Record Param : Type := {
  data : list (list R);
  requires_grad : bool
}.

(** A [torch.nn.Linear] layer; [weight] has [out_features] rows of
    [in_features] entries. *)
Record Linear : Type := {
  in_features : nat;
  out_features : nat;
  weight : Param;
  bias : option Param
}.

Record MelodyNet : Type := {
  state_size : nat;
  chord_size : nat;
  meter_size : nat;
  input_size : nat;
  hidden1_size : nat;
  hidden2_size : nat;
  output_size : nat;
  lr : R;
  momentum : R;
  weight_decay : R;
  chord_weights : R;
  melody_weights : R;
  state_units_decay : R;
  model_name : string;
  hidden1 : Linear;
  hidden2_from_hidden1 : Linear;
  hidden2_from_chord : Linear;
  output : Linear
}.

Definition chromatic_notes : list string :=
  ["A"; "A#"; "B"; "C"; "C#"; "D"; "D#"; "E"; "F"; "F#"; "G"; "G#"]%string.

Definition chord_types : list string :=
  ["maj"; "min"; "dim"; "maj7"; "min7"; "dom7"; "min7b5"]%string.

(** [[note + chord_type for note in chromatic_notes for chord_type in chord_types]] *)
Definition hidden2_chords : list string :=
  note ← chromatic_notes; chord_type ← chord_types; [String.append note chord_type].

(** [['rest'] + [note for note in chromatic_notes for octave in range(6)
    for lifespan in range(2)]] *)
Definition output_notes : list string :=
  "rest"%string ::
  (note ← chromatic_notes; octave ← seq 0 6; lifespan ← seq 0 2; [note]).

(** [any(note == chord_note[:-1] for chord_note in chord_notes)] *)
Definition note_in_chord (note : string) (chord_notes : list string) : bool :=
  existsb (fun chord_note => String.eqb note (drop_last chord_note)) chord_notes.

Section Construction.

(** The table [CHORD_NOTES] of [utils/data/mappings.py]. *)
Variable CHORD_NOTES : gmap string (list string).

(** The random draws of the default [nn.Linear] initialisation: entry
    [(row, col)] of the [k]-th tensor the constructor creates. *)
Variable rng : nat -> nat -> nat -> R.

Definition random_tensor (k rows cols : nat) : list (list R) :=
  map (fun i => map (fun j => rng k i j) (seq 0 cols)) (seq 0 rows).

(** [nn.Linear(n_in, n_out, bias=b)]; [k] numbers its first tensor. *)
Definition nn_Linear (k n_in n_out : nat) (b : bool) : Linear :=
  {| in_features := n_in;
     out_features := n_out;
     weight := {| data := random_tensor k n_out n_in; requires_grad := true |};
     bias := if b then Some {| data := random_tensor (S k) 1 n_out;
                               requires_grad := true |}
             else None |}.

(** The inner loop [for j, chord in enumerate(hidden2_chords)] of row [i];
    [CHORD_NOTES.get(chord)] is [None] for a missing chord, and iterating
    [None] raises TypeError. *)
Fixpoint fill_row (note : string) (i j : nat) (chords : list string)
    (chords_to_notes : list (list R)) : result (list (list R)) :=
  match chords with
  | [] => Ok chords_to_notes
  | chord :: chords' =>
      match CHORD_NOTES !! chord with
      | None => Raise TypeError
      | Some chord_notes =>
          fill_row note i (S j) chords'
            (if note_in_chord note chord_notes
             then mset i j 1 chords_to_notes
             else chords_to_notes)
      end
  end.

(** The outer loop [for i, note in enumerate(output_notes[1:], start=1)]. *)
Fixpoint fill_rows (i : nat) (notes : list string)
    (chords_to_notes : list (list R)) : result (list (list R)) :=
  match notes with
  | [] => Ok chords_to_notes
  | note :: notes' =>
      M ← fill_row note i 0 hidden2_chords chords_to_notes;
      fill_rows (S i) notes' M
  end.

(** Lines 136-148: the 0/1 membership matrix, 145 rows of 84 entries. *)
Definition chords_to_notes (n_out n_hidden2 : nat) : result (list (list R)) :=
  let M := repeat (zeros n_hidden2) n_out in
  let M := <[0%nat := ones n_hidden2]> M in
  fill_rows 1 (tail output_notes) M.

(** Line 151: [(M / M.sum(dim=1, keepdim=True)) * melody_weights]. *)
Definition balance_and_scale (mw : R) (M : list (list R)) : list (list R) :=
  map (fun row => map (fun a => a * mw) (div_scalar row (vsum row))) M.

Definition fixed_output_weights (n_out n_hidden2 : nat) (mw : R)
  : result (list (list R)) :=
  M ← chords_to_notes n_out n_hidden2; mret (balance_and_scale mw M).

(** [MelodyNet.__init__].  [hidden1_size] is a natural number, so the
    layers are always created. *)
Definition MelodyNet_init (hidden1_size : nat) (lr weight_decay : R)
    (chord_weights melody_weights state_units_decay : R)
    (model_name : string) : result MelodyNet :=
  let state_size := 145%nat in
  let chord_size := 84%nat in
  let meter_size := 16%nat in
  let input_size := 245%nat in
  let hidden2_size := 84%nat in
  let output_size := 145%nat in
  let hidden1 := nn_Linear 0 input_size hidden1_size true in
  let hidden2_from_hidden1 := nn_Linear 2 hidden1_size hidden2_size true in
  let hidden2_from_chord := nn_Linear 4 chord_size hidden2_size false in
  let hidden2_from_chord :=
    {| in_features := in_features hidden2_from_chord;
       out_features := out_features hidden2_from_chord;
       weight := {| data := fill_diagonal_ chord_weights
                              (data (weight hidden2_from_chord));
                    requires_grad := requires_grad (weight hidden2_from_chord) |};
       bias := bias hidden2_from_chord |} in
  let output := nn_Linear 5 hidden2_size output_size false in
  W ← fixed_output_weights output_size hidden2_size melody_weights;
  mret {| state_size := state_size;
          chord_size := chord_size;
          meter_size := meter_size;
          input_size := input_size;
          hidden1_size := hidden1_size;
          hidden2_size := hidden2_size;
          output_size := output_size;
          lr := lr;
          momentum := 0;
          weight_decay := weight_decay;
          chord_weights := chord_weights;
          melody_weights := melody_weights;
          state_units_decay := state_units_decay;
          model_name := model_name;
          hidden1 := hidden1;
          hidden2_from_hidden1 := hidden2_from_hidden1;
          hidden2_from_chord := hidden2_from_chord;
          output := {| in_features := in_features output;
                       out_features := out_features output;
                       weight := {| data := W; requires_grad := false |};
                       bias := bias output |} |}.

End Construction.

(** [F.linear(x, W, b)] on one row; a row of the wrong width cannot be
    multiplied with [W]. *)
Definition linear (L : Linear) (x : list R) : result (list R) :=
  if Nat.eqb (length x) (in_features L) then
    let y := map (fun w => dot x w) (data (weight L)) in
    match bias L with
    | None => Ok y
    | Some b => add y (default [] (data b !! 0%nat))
    end
  else Raise RuntimeError.

(** [x[a:b]] on one row. *)
Definition slice (a b : nat) (x : list R) : list R := take (b - a) (drop a x).

Definition forward_row (net : MelodyNet) (x : list R) : result (list R) :=
  a1 ← linear (hidden1 net) x;
  let h1 := relu a1 in
  h2_from_h1 ← linear (hidden2_from_hidden1 net) h1;
  let chord := slice (state_size net) (state_size net + chord_size net) x in
  h2_from_chord ← linear (hidden2_from_chord net) chord;
  s ← add h2_from_h1 h2_from_chord;
  let h2 := relu s in
  linear (output net) h2.

(** [MelodyNet.forward] on a batch given by its rows. *)
Definition forward (net : MelodyNet) (X : list (list R)) : result (list (list R)) :=
  mapM (forward_row net) X.

(** Modelled from the spec: the update pass of the external optimizer,
    which is not part of the two files.  It is [torch.optim.SGD] with the
    [lr], [weight_decay] and zero [momentum] the constructor stores, and it
    leaves alone every parameter whose [requires_grad] flag is off (such a
    tensor never receives a gradient). *)
Definition sgd_param (lr wd : R) (p : Param) (grad : list (list R)) : Param :=
  if requires_grad p
  then {| data := zip_with (zip_with (fun w g => w - lr * (g + wd * w)))
                    (data p) grad;
          requires_grad := true |}
  else p.

Definition sgd_Linear (lr wd : R) (L : Linear) (gw gb : list (list R)) : Linear :=
  {| in_features := in_features L;
     out_features := out_features L;
     weight := sgd_param lr wd (weight L) gw;
     bias := (fun b => sgd_param lr wd b gb) <$> bias L |}.

(** One optimizer step on a network; [grad k] is the gradient of the
    [k]-th tensor the constructor created. *)
Definition sgd_step (net : MelodyNet) (grad : nat -> list (list R)) : MelodyNet :=
  let upd L k := sgd_Linear (lr net) (weight_decay net) L (grad k) (grad (S k)) in
  {| state_size := state_size net;
     chord_size := chord_size net;
     meter_size := meter_size net;
     input_size := input_size net;
     hidden1_size := hidden1_size net;
     hidden2_size := hidden2_size net;
     output_size := output_size net;
     lr := lr net;
     momentum := momentum net;
     weight_decay := weight_decay net;
     chord_weights := chord_weights net;
     melody_weights := melody_weights net;
     state_units_decay := state_units_decay net;
     model_name := model_name net;
     hidden1 := upd (hidden1 net) 0%nat;
     hidden2_from_hidden1 := upd (hidden2_from_hidden1 net) 2%nat;
     hidden2_from_chord := upd (hidden2_from_chord net) 4%nat;
     output := upd (output net) 5%nat |}.

(** The table has an entry for each of the 84 chord labels. *)
Definition table_complete (T : gmap string (list string)) : Prop :=
  Forall (fun chord => is_Some (T !! chord)) hidden2_chords.

(** Every chromatic note is, with its last character dropped, a note of at
    least one of the 84 chords. *)
Definition notes_covered (T : gmap string (list string)) : Prop :=
  Forall (fun note =>
    Exists (fun chord => from_option (note_in_chord note) false (T !! chord) = true)
      hidden2_chords) chromatic_notes.

End Mnet.

(** ** utils/play.py: the playback recurrence *)

Module Play.

(** What [play_song] uses of the network returned by [torch.load]: two
    attributes and the call [hnn(inputs)].  Every tensor of the loop has a
    leading dimension of size one and is given by its single row. *)
Record Network : Type := {
  output_size : nat;
  state_units_decay : R;
  call : list R -> result (list R)
}.

(** A [MelodyNet] seen through that interface. *)
Definition of_MelodyNet (net : Mnet.MelodyNet) : Network :=
  {| output_size := Mnet.output_size net;
     state_units_decay := Mnet.state_units_decay net;
     call := fun x =>
       Y ← Mnet.forward net [x];
       match Y with
       | [y] => Ok y
       | _ => Raise RuntimeError
       end |}.

(** What the loop does to the outside world, in order.  The first two are
    ghost events: they record the values given to [state_units] on line
    153 and on line 154. *)
Inductive event : Type :=
| StateBlended (state_units : list R)
| StateNormalized (state_units : list R)
| Printed (note_str chord_str : option string)
| ChordSound (chord : string)
| NoteSound (note : string).

(** A computation that logs events and may raise; the events logged before
    an exception stay logged. *)
Definition io (A : Type) : Type := (list event * result A)%type.

#[global] Instance io_ret : MRet io := fun A a => ([], Ok a).
#[global] Instance io_bind : MBind io := fun A B f m =>
  match m with
  | (l, Ok a) => let '(l', r) := f a in (l ++ l', r)
  | (l, Raise e) => (l, Raise e)
  end.

Definition lift {A} (r : result A) : io A := ([], r).
Definition emit (e : event) : io unit := ([e], Ok tt).

(** [torch.eye(n)[i]] for a Python integer [i]: negative indices count
    from the end, anything else out of range is an IndexError. *)
Definition eye_index (n : nat) (i : Z) : result (list R) :=
  if decide (0 <= i < Z.of_nat n)%Z then Ok (eye_row n (Z.to_nat i))
  else if decide (- Z.of_nat n <= i < 0)%Z then Ok (eye_row n (Z.to_nat (Z.of_nat n + i)))
  else Raise IndexError.

(** Line 153: [F.softmax(output, dim=1) + decay * state_units]. *)
Definition blend (decay : R) (output state_units : list R) : result (list R) :=
  add (softmax output) (scale decay state_units).

(** Line 154: [state_units / state_units.sum(dim=1, keepdim=True)]. *)
Definition renormalize (state_units : list R) : list R :=
  div_scalar state_units (vsum state_units).

(** Lines 153-154. *)
Definition update_state (decay : R) (output state_units : list R)
  : result (list R) :=
  s ← blend decay output state_units; mret (renormalize s).

Section Driver.

(** The tables of [utils/data/mappings.py]. *)
Variable NOTE_ENC_TO_IDX_REF : gmap string Z.
Variable NOTE_ENC_TO_NOTE_STR_REF : gmap string string.
Variable IDX_TO_CHORD_STR_REF : gmap nat string.
Variable CHORD_NOTES : gmap string (list string).
Variable NOTE_FREQUENCIES : gmap string R.

(** The network loaded from [model_path]. *)
Variable hnn : Network.

(** [play_note]: the frequency lookup, then the sound. *)
Definition play_note (note : option string) : io unit :=
  match note with
  | None => lift (Raise KeyError)
  | Some n => _ ← lift (getitem NOTE_FREQUENCIES n); emit (NoteSound n)
  end.

(** [[NOTE_FREQUENCIES[note] for note in chord_notes]] *)
Fixpoint note_freqs (chord_notes : list string) : result (list R) :=
  match chord_notes with
  | [] => Ok []
  | note :: rest =>
      f ← getitem NOTE_FREQUENCIES note;
      fs ← note_freqs rest;
      mret (f :: fs)
  end.

(** [play_chord]: [CHORD_NOTES[chord]] ([None] is not a key), the
    frequency lookups, then the sound. *)
Definition play_chord (chord : option string) : io unit :=
  match chord with
  | None => lift (Raise KeyError)
  | Some c =>
      chord_notes ← lift (getitem CHORD_NOTES c);
      _ ← lift (note_freqs chord_notes);
      emit (ChordSound c)
  end.

Fixpoint play_notes (notes : list (option string)) : io unit :=
  match notes with
  | [] => mret tt
  | note :: rest => _ ← play_note note; play_notes rest
  end.

Definition play_comp (notes : list (option string)) (chord : option string)
  : io unit :=
  _ ← play_chord chord;
  match notes with
  | [] => lift (Raise IndexError)
  | Some _ :: _ => play_notes notes
  | None :: _ => mret tt
  end.

(** Lines 134-140: the one-hot melody input. *)
Definition melody_input (note : string) : result (list R) :=
  match NOTE_ENC_TO_IDX_REF !! slice_to 2 note with
  | Some note_idx => eye_index 12 note_idx
  | None => Ok (zeros 12)
  end.

(** Lines 143-144. *)
Definition meter_units (timestep : nat) : list R := eye_row 2 (timestep mod 2).

(** Lines 134-147: [torch.cat([state_units, input_t, meter_units], dim=1)]. *)
Definition inputs (timestep : nat) (state_units : list R) (note : string)
  : result (list R) :=
  input_t ← melody_input note;
  mret (state_units ++ input_t ++ meter_units timestep).

(** Lines 157-160. *)
Definition note_string (note : string) : result (option string) :=
  match NOTE_ENC_TO_NOTE_STR_REF !! slice_to 2 note with
  | Some s => c ← char_at 2 note; mret (Some (String.append s c))
  | None => Ok None
  end.

(** Lines 133-154: the network is run on the concatenated input and
    [state_units] is updated; the logits and the new state are returned. *)
Definition recurrence (timestep : nat) (state_units : list R) (note : string)
  : io (list R * list R) :=
  x ← lift (inputs timestep state_units note);
  output ← lift (call hnn x);
  s ← lift (blend (state_units_decay hnn) output state_units);
  _ ← emit (StateBlended s);
  _ ← emit (StateNormalized (renormalize s));
  mret (output, renormalize s).

(** Lines 156-167: the note and the chord are decoded, printed and played. *)
Definition playback (note : string) (output : list R) : io unit :=
  note_str ← lift (note_string note);
  chord_idx ← lift (argmax output);
  let chord_str := IDX_TO_CHORD_STR_REF !! chord_idx in
  _ ← emit (Printed note_str chord_str);
  play_comp [note_str] chord_str.

(** One iteration of the loop; the new [state_units] is returned. *)
Definition timestep_body (timestep : nat) (state_units : list R) (note : string)
  : io (list R) :=
  r ← recurrence timestep state_units note;
  _ ← playback note (fst r);
  mret (snd r).

(** [for timestep in range(len(song_notes))], from [timestep] on. *)
Fixpoint play_loop (timestep : nat) (state_units : list R)
    (song_notes : list string) : io unit :=
  match song_notes with
  | [] => mret tt
  | note :: rest =>
      state_units' ← timestep_body timestep state_units note;
      play_loop (S timestep) state_units' rest
  end.

(** [play_song], given the loaded network and the notes of the song. *)
Definition play_song (song_notes : list string) : io unit :=
  play_loop 0 (zeros (output_size hnn)) song_notes.

End Driver.

End Play.

(** ** Sample tables and a sample network *)

Module Sample.

Definition chord_intervals : list (string * list nat) :=
  [("maj", [0; 4; 7]); ("min", [0; 3; 7]); ("dim", [0; 3; 6]);
   ("maj7", [0; 4; 7; 11]); ("min7", [0; 3; 7; 10]);
   ("dom7", [0; 4; 7; 10]); ("min7b5", [0; 3; 6; 10])]%string%nat.

Definition note_name (k : nat) : string :=
  nth (k mod 12) Mnet.chromatic_notes ""%string.

(** Modelled from the spec: the table [CHORD_NOTES] of
    [utils/data/mappings.py], which maps a chord label to its constituent
    note names (root, third, fifth, extensions); each name carries an octave
    character, which the constructor drops before it compares. *)
Definition CHORD_NOTES : gmap string (list string) :=
  list_to_map
    (root ← seq 0 12;
     '(chord_type, steps) ← chord_intervals;
     [(String.append (note_name root) chord_type,
       map (fun d => String.append (note_name (root + d)) "4") steps)]).

(** Modelled from the spec: the symbol tables of [utils/data/mappings.py].
    A melody symbol is note digit, accidental digit, octave, lifespan; its
    first two characters select the pitch class, and [0000] is the rest. *)
Definition pitch_codes : list string :=
  ["10"; "11"; "20"; "30"; "31"; "40"; "41"; "50"; "60"; "61"; "70"; "71"]%string.

Definition NOTE_ENC_TO_IDX_REF : gmap string Z :=
  list_to_map (imap (fun i code => (code, Z.of_nat i)) pitch_codes).

Definition NOTE_ENC_TO_NOTE_STR_REF : gmap string string :=
  list_to_map (imap (fun i code => (code, note_name i)) pitch_codes).

(** Modelled from the spec: the chord class index table, in the order of
    the 84 chord labels. *)
Definition IDX_TO_CHORD_STR_REF : gmap nat string :=
  list_to_map (imap (fun i chord => (i, chord)) Mnet.hidden2_chords).

(** Modelled from the spec: the frequency table, equal temperament around
    A4 = 440 Hz, for the octaves 2 to 7. *)
Definition NOTE_FREQUENCIES : gmap string R :=
  list_to_map
    (octave ← seq 2 6;
     k ← seq 0 12;
     [(String.append (note_name k) (String (ascii_of_nat (48 + octave)) ""),
       440 * Rpower 2 ((INR (12 * octave + k) - 48) / 12))]).

(** A network of the shape the loop expects: 84 outputs over an input of
    84 state units, 12 melody units and 2 meter units. *)
Definition hnn : Play.Network :=
  {| Play.output_size := 84;
     Play.state_units_decay := 1 / 2;
     Play.call := fun x =>
       if Nat.eqb (length x) 98 then Ok (take 84 x) else Raise RuntimeError |}.

(** A draw of the initial weights: every entry is [1/16]. *)
Definition rng (k i j : nat) : R := 1 / 16.

(** The chord table with the entry of one chord removed. *)
Definition CHORD_NOTES_without_Cmaj : gmap string (list string) :=
  delete "Cmaj"%string CHORD_NOTES.

(** A gradient for a network with 64 units in the first hidden layer:
    every entry of the gradient of every tensor is [1]. *)
Definition unit_grad (k : nat) : list (list R) :=
  match k with
  | 0%nat => repeat (ones 245) 64
  | 1%nat => [ones 64]
  | 2%nat => repeat (ones 64) 84
  | 3%nat => [ones 84]
  | 4%nat => repeat (ones 84) 84
  | _ => repeat (ones 84) 145
  end.

End Sample.

(** ** Closed forms of the loops, used in the proofs *)

Module Closed.

(** The value line 148 leaves at the place of [note] and [chord]. *)
Definition member (T : gmap string (list string)) (note chord : string) : R :=
  if from_option (Mnet.note_in_chord note) false (T !! chord) then 1 else 0.

Definition membership_row (T : gmap string (list string)) (note : string) : list R :=
  map (member T note) Mnet.hidden2_chords.

Definition membership_matrix (T : gmap string (list string)) : list (list R) :=
  ones 84 :: map (membership_row T) (tail Mnet.output_notes).

(** A state the loop can hold: of the network's width and non-negative. *)
Definition state_ok (n : nat) (s : list R) : Prop :=
  length s = n /\ Forall (fun a => 0 <= a) s.

(** A probability distribution. *)
Definition distribution (s : list R) : Prop :=
  Forall (fun a => 0 <= a) s /\ vsum s = 1.

(** The network answers an input of its own state width plus the 12 melody
    and 2 meter units with logits of its state width. *)
Definition well_shaped (hnn : Play.Network) : Prop :=
  forall x : list R,
    length x = (Play.output_size hnn + 14)%nat ->
    exists y, Play.call hnn x = Ok y /\ length y = Play.output_size hnn.

(** What is asked of the two assignments to [state_units]: the sum that
    line 154 divides by is not zero, and the quotient is a distribution. *)
Definition state_event_ok (e : Play.event) : Prop :=
  match e with
  | Play.StateBlended s => vsum s <> 0
  | Play.StateNormalized s => distribution s
  | _ => True
  end.

Definition is_state_event (e : Play.event) : Prop :=
  match e with
  | Play.StateBlended _ | Play.StateNormalized _ => True
  | _ => False
  end.

Definition is_playback_event (e : Play.event) : Prop :=
  match e with
  | Play.StateBlended _ | Play.StateNormalized _ => False
  | _ => True
  end.

Definition is_normalized (e : Play.event) : bool :=
  match e with
  | Play.StateNormalized _ => true
  | _ => false
  end.

Definition is_printed (e : Play.event) : bool :=
  match e with
  | Play.Printed _ _ => true
  | _ => false
  end.

(** A chord label was printed: the second component is not [None]. *)
Definition printed_chord (e : Play.event) : option string :=
  match e with
  | Play.Printed _ chord_str => chord_str
  | _ => None
  end.

Definition count_events (p : Play.event -> bool) (l : list Play.event) : nat :=
  length (List.filter p l).

(** The melody indices are valid positions of [torch.eye(12)]. *)
Definition indices_in_range (T : gmap string Z) : Prop :=
  forall (k : string) (i : Z), T !! k = Some i -> (-12 <= i < 12)%Z.

(** A chord label [play_chord] can play: it is a key of the chord table
    and each of its notes is a key of the frequency table. *)
Definition chord_playable (chords : gmap string (list string))
    (freqs : gmap string R) (chord : string) : Prop :=
  exists chord_notes,
    chords !! chord = Some chord_notes
    /\ Forall (fun note => is_Some (freqs !! note)) chord_notes.

(** The chord index table covers the outputs of the network with playable
    labels. *)
Definition chords_cover (idx : gmap nat string) (chords : gmap string (list string))
    (freqs : gmap string R) (n : nat) : Prop :=
  forall i : nat, (i < n)%nat ->
    exists chord, idx !! i = Some chord /\ chord_playable chords freqs chord.

(** A symbol the playback lines accept: its first two characters are not a
    key of the note-name table, or it has a third character and the note
    they spell is a key of the frequency table. *)
Definition symbol_ok (names : gmap string string) (freqs : gmap string R)
    (note : string) : Prop :=
  match names !! slice_to 2 note with
  | None => True
  | Some name =>
      exists c, String.get 2 note = Some c
                /\ is_Some (freqs !! String.append name (String c EmptyString))
  end.

(** The chord labels a run printed, in order ([None] for a missing one). *)
Definition chords_printed (l : list Play.event) : list (option string) :=
  map printed_chord (List.filter is_printed l).

(** Partial correctness of a logging computation: every event satisfies
    [P], and a returned value satisfies [Q]. *)
Definition io_sat {A} (P : Play.event -> Prop) (Q : A -> Prop) (m : Play.io A) : Prop :=
  Forall P (fst m) /\ forall a, snd m = Ok a -> Q a.

End Closed.
Import Closed.

(** ** More sample inputs *)

Module Sample2.

(** A chord table that has the 84 entries but names no note in any of
    them. *)
Definition CHORD_NOTES_no_notes : gmap string (list string) :=
  list_to_map (map (fun chord => (chord, @nil string)) Mnet.hidden2_chords).

End Sample2.

(** ** Kinds of events *)

Module Kinds.

Definition is_chord_sound (e : Play.event) : bool :=
  match e with
  | Play.ChordSound _ => true
  | _ => false
  end.

Definition is_note_sound (e : Play.event) : bool :=
  match e with
  | Play.NoteSound _ => true
  | _ => false
  end.

End Kinds.
Import Kinds.

(** ** torch.float32 *)

Module F32.

(** A [torch.float32] value is an IEEE 754 binary32 number: 24 bits of
    precision, infinities at exponent 128, and every operation rounded to
    the nearest value, ties to even. *)
Definition prec : Z := 24.
Definition emax : Z := 128.

Definition f32 : Type := SpecFloat.spec_float.

Definition add : f32 -> f32 -> f32 := SpecFloat.SFadd prec emax.
Definition mul : f32 -> f32 -> f32 := SpecFloat.SFmul prec emax.
Definition div : f32 -> f32 -> f32 := SpecFloat.SFdiv prec emax.

Definition zero : f32 := SpecFloat.S754_zero false.
Definition one : f32 := SpecFloat.SFone prec emax.

(** The conversion of a Python [int]. *)
Definition of_nat (n : nat) : f32 :=
  SpecFloat.binary_normalize prec emax (Z.of_nat n) 0 false.

(** A zero or a finite number in the format: neither an infinity nor NaN. *)
Definition is_finite (x : f32) : bool :=
  match x with
  | SpecFloat.S754_zero _ => true
  | SpecFloat.S754_finite _ _ _ => SpecFloat.valid_binary prec emax x
  | _ => false
  end.

(** What an entry of a softmax can be: [+0.] or a positive finite number. *)
Definition is_weight (x : f32) : bool :=
  match x with
  | SpecFloat.S754_zero false => true
  | SpecFloat.S754_finite false _ _ => SpecFloat.valid_binary prec emax x
  | _ => false
  end.

(** [c * x] with [c] a scalar. *)
Definition scale (c : f32) (x : list f32) : list f32 := map (mul c) x.

(** [x / s] with [s] a scalar (a [keepdim] sum broadcast over the row). *)
Definition div_scalar (x : list f32) (s : f32) : list f32 :=
  map (fun a => div a s) x.

(** [x + y] on the last dimension, with torch's broadcasting rule. *)
Definition add_rows (x y : list f32) : result (list f32) :=
  if Nat.eqb (length x) (length y)
  then Ok (map (fun p => add (fst p) (snd p)) (combine x y))
  else match x, y with
       | [a], _ => Ok (map (fun b => add a b) y)
       | _, [b] => Ok (map (fun a => add a b) x)
       | _, _ => Raise RuntimeError
       end.

End F32.

(** ** utils/play.py: the state update in float32 *)

Module Play32.

Section Update.

(** The two library reductions of lines 153-154.  [F_softmax] is
    [F.softmax(., dim=1)] on one row.  [torch_sum] is
    [.sum(dim=1, keepdim=True)] on one row: torch does not fix the order in
    which the entries are added, and in float32 the sum depends on it. *)
Variable F_softmax : list F32.f32 -> list F32.f32.
Variable torch_sum : list F32.f32 -> F32.f32.

(** Line 153: [F.softmax(output, dim=1) + decay * state_units]. *)
Definition blend (decay : F32.f32) (output state_units : list F32.f32)
  : result (list F32.f32) :=
  F32.add_rows (F_softmax output) (F32.scale decay state_units).

(** Line 154: [state_units / state_units.sum(dim=1, keepdim=True)]. *)
Definition renormalize (state_units : list F32.f32) : list F32.f32 :=
  F32.div_scalar state_units (torch_sum state_units).

(** Lines 153-154. *)
Definition update_state (decay : F32.f32) (output state_units : list F32.f32)
  : result (list F32.f32) :=
  s ← blend decay output state_units; mret (renormalize s).

End Update.

End Play32.

(** ** Sample reductions in float32 *)

Module Sample32.

(** [F.softmax] on a row of [n] equal logits, [0 < n < 2^24]: every
    [exp(x - max)] is [exp(0) = 1.], their sum is [n] in any order, and
    every entry is the rounded quotient [1. / n].  Other rows are not
    sampled. *)
Definition softmax_of_equal_logits (output : list F32.f32) : list F32.f32 :=
  repeat (F32.div F32.one (F32.of_nat (length output))) (length output).

(** Group [j] of [lanes] consecutive entries of a row. *)
Definition vec (lanes : nat) (x : list F32.f32) (j : nat) : list F32.f32 :=
  take lanes (drop (j * lanes) x).

(** Lane by lane addition of two vector registers. *)
Definition vadd (a b : list F32.f32) : list F32.f32 :=
  map (fun p => F32.add (fst p) (snd p)) (combine a b).

(** The order in which the CPU kernel of [torch.sum] adds a contiguous
    float32 row of fewer than [64 * lanes] entries, with vector registers
    of [lanes] floats (8 with AVX2): four vector accumulators take the
    groups of [lanes] entries in turn, the groups left over go to the
    first accumulator, the accumulators are added into the first one, and
    its lanes are added from left to right to the sum of the entries that
    fill no group. *)
Definition aten_row_sum (lanes : nat) (x : list F32.f32) : F32.f32 :=
  let vec_size := (length x / lanes)%nat in
  let size_ilp := (vec_size / 4)%nat in
  let acc k :=
    fold_left (fun a i => vadd a (vec lanes x (4 * i + k)))
      (seq 0 size_ilp) (repeat F32.zero lanes) in
  let acc0 :=
    fold_left (fun a j => vadd a (vec lanes x j))
      (seq (4 * size_ilp) (vec_size - 4 * size_ilp)) (acc 0%nat) in
  let partials := vadd (vadd (vadd acc0 (acc 1%nat)) (acc 2%nat)) (acc 3%nat) in
  let final_acc := fold_left F32.add (drop (vec_size * lanes) x) F32.zero in
  fold_left F32.add partials final_acc.

(** The entries added one after the other, from left to right. *)
Definition sequential_sum (x : list F32.f32) : F32.f32 :=
  fold_left F32.add x F32.zero.

(** A row of 84 equal logits, and its softmax. *)
Definition equal_logits : list F32.f32 := repeat F32.zero 84.
Definition uniform_row : list F32.f32 := softmax_of_equal_logits equal_logits.

End Sample32.

(** ** Sums, softmax and broadcasting *)

Section VectorFacts.

Lemma vsum_app (x y : list R) : vsum (x ++ y) = vsum x + vsum y.
Proof.
  induction x as [|a x IH]; simpl.
  - lra.
  - rewrite IH. lra.
Qed.

Lemma vsum_nonneg (x : list R) : Forall (fun a => 0 <= a) x -> 0 <= vsum x.
Proof.
  induction 1 as [|a x Ha _ IH]; simpl; [lra|].
  lra.
Qed.

Lemma vsum_pos (x : list R) :
  x <> [] -> Forall (fun a => 0 < a) x -> 0 < vsum x.
Proof.
  intros Hne Hall. destruct Hall as [|a x Ha Hx]; [congruence|].
  simpl. assert (0 <= vsum x).
  { apply vsum_nonneg. eapply Forall_impl; [exact Hx|]. simpl. intros; lra. }
  lra.
Qed.

Lemma vsum_ge_member (x : list R) (a : R) :
  Forall (fun b => 0 <= b) x -> a ∈ x -> a <= vsum x.
Proof.
  induction 1 as [|b x Hb Hx IH]; intros Hin.
  - inversion Hin.
  - simpl. pose proof (vsum_nonneg x Hx) as Hs.
    apply elem_of_cons in Hin as [->|Hin]; [lra|].
    specialize (IH Hin). lra.
Qed.

Lemma vsum_map_mult_r (c : R) (x : list R) :
  vsum (map (fun a => a * c) x) = vsum x * c.
Proof.
  induction x as [|a x IH]; simpl; [lra|].
  rewrite IH. lra.
Qed.

Lemma vsum_div_scalar (x : list R) (s : R) : vsum (div_scalar x s) = vsum x / s.
Proof.
  unfold div_scalar, Rdiv. apply vsum_map_mult_r.
Qed.

Lemma vsum_repeat (a : R) (n : nat) : vsum (repeat a n) = INR n * a.
Proof.
  induction n as [|n IH].
  - simpl. lra.
  - rewrite S_INR. simpl. rewrite IH. lra.
Qed.

Lemma vsum_zip_plus (x y : list R) :
  length x = length y ->
  vsum (map (fun p => fst p + snd p) (combine x y)) = vsum x + vsum y.
Proof.
  revert y. induction x as [|a x IH]; intros [|b y] Hlen; simpl in *;
    try discriminate; [lra|].
  injection Hlen as Hlen. rewrite (IH y Hlen). lra.
Qed.

Lemma vsum_scale (c : R) (x : list R) : vsum (scale c x) = c * vsum x.
Proof.
  unfold scale. induction x as [|a x IH]; simpl; [lra|].
  rewrite IH. lra.
Qed.

Lemma exp_sum_pos (x : list R) : x <> [] -> 0 < vsum (map exp x).
Proof.
  intros Hne. apply vsum_pos.
  - destruct x; [congruence|discriminate].
  - apply Forall_forall. intros a Ha. apply list_elem_of_fmap in Ha as (b & -> & _).
    apply exp_pos.
Qed.

Lemma softmax_length (x : list R) : length (softmax x) = length x.
Proof. unfold softmax, div_scalar. by rewrite !length_map. Qed.

Lemma softmax_pos (x : list R) : Forall (fun a => 0 < a) (softmax x).
Proof.
  destruct (decide (x = [])) as [->|Hne]; [constructor|].
  pose proof (exp_sum_pos x Hne) as Hs.
  unfold softmax, div_scalar. apply Forall_forall. intros a Ha.
  apply list_elem_of_fmap in Ha as (b & -> & Hb).
  apply list_elem_of_fmap in Hb as (c & -> & _).
  apply Rdiv_lt_0_compat; [apply exp_pos|exact Hs].
Qed.

Lemma softmax_sum (x : list R) : x <> [] -> vsum (softmax x) = 1.
Proof.
  intros Hne. pose proof (exp_sum_pos x Hne) as Hs.
  unfold softmax. rewrite vsum_div_scalar. field. lra.
Qed.

Lemma add_same_length (x y : list R) :
  length x = length y ->
  add x y = Ok (map (fun p => fst p + snd p) (combine x y)).
Proof.
  intros Hlen. unfold add. rewrite Hlen, Nat.eqb_refl. reflexivity.
Qed.

Lemma scale_length (c : R) (x : list R) : length (scale c x) = length x.
Proof. unfold scale. by rewrite length_map. Qed.

Lemma eye_row_length (n i : nat) : length (eye_row n i) = n.
Proof. unfold eye_row. by rewrite length_map, length_seq. Qed.

End VectorFacts.

(** ** The constructor: what the loops compute *)

Ltac to_fmap :=
  repeat match goal with
         | |- context [map ?f ?l] => change (map f l) with (f <$> l)
         end.

Section ConstructionFacts.

Variable T : gmap string (list string).

Lemma hidden2_chords_length : length Mnet.hidden2_chords = 84%nat.
Proof. reflexivity. Qed.

Lemma tail_output_notes_length : length (tail Mnet.output_notes) = 144%nat.
Proof. reflexivity. Qed.

Lemma mset_middle (pre post : list (list R)) (row : list R) (j : nat) (v : R) :
  mset (length pre) j v (pre ++ row :: post) = pre ++ <[j := v]> row :: post.
Proof.
  unfold mset. replace (length pre) with (length pre + 0)%nat by lia.
  by rewrite alter_app_r.
Qed.

Lemma member_lookup (note chord : string) (chord_notes : list string) :
  T !! chord = Some chord_notes ->
  member T note chord = if Mnet.note_in_chord note chord_notes then 1 else 0.
Proof. intros H. unfold member. by rewrite H. Qed.

(** The inner loop, started on a row whose first [length done] places are
    filled and whose other places are still zero, fills the row. *)
Lemma fill_row_ok (note : string) (pre post : list (list R)) :
  forall (rest done : list string),
    Forall (fun chord => is_Some (T !! chord)) rest ->
    Mnet.fill_row T note (length pre) (length done) rest
      (pre ++ (map (member T note) done ++ zeros (length rest)) :: post)
    = Ok (pre ++ map (member T note) (done ++ rest) :: post).
Proof.
  induction rest as [|chord rest IH]; intros done Hall.
  - simpl. by rewrite !app_nil_r.
  - apply Forall_cons in Hall as [[chord_notes Hc] Hall].
    cbn [Mnet.fill_row]. rewrite Hc.
    specialize (IH (done ++ [chord]) Hall).
    rewrite length_app, Nat.add_1_r in IH.
    rewrite map_app, <- !app_assoc in IH. cbn [map app] in IH.
    rewrite (member_lookup note chord chord_notes Hc) in IH.
    cbn [length zeros repeat].
    destruct (Mnet.note_in_chord note chord_notes).
    + rewrite mset_middle, insert_app_r_alt by (rewrite length_map; lia).
      rewrite length_map, Nat.sub_diag. exact IH.
    + exact IH.
Qed.

Lemma fill_row_missing (note : string) :
  forall (rest : list string) (i j : nat) (M : list (list R)),
    Exists (fun chord => T !! chord = None) rest ->
    Mnet.fill_row T note i j rest M = Raise TypeError.
Proof.
  induction rest as [|chord rest IH]; intros i j M Hex.
  - inversion Hex.
  - cbn [Mnet.fill_row]. destruct (T !! chord) as [chord_notes|] eqn:Hc; [|done].
    apply Exists_cons in Hex as [Hex|Hex]; [congruence|].
    by apply IH.
Qed.

(** The outer loop, started on a matrix whose rows from [length pre] on are
    still zero, fills one row per note. *)
Lemma fill_rows_ok :
  forall (notes : list string) (pre : list (list R)),
    Mnet.table_complete T ->
    Mnet.fill_rows T (length pre) notes (pre ++ repeat (zeros 84) (length notes))
    = Ok (pre ++ map (membership_row T) notes).
Proof.
  induction notes as [|note notes IH]; intros pre Hall.
  - reflexivity.
  - cbn [Mnet.fill_rows length repeat].
    pose proof (fill_row_ok note pre (repeat (zeros 84) (length notes))
                  Mnet.hidden2_chords [] Hall) as Hrow.
    rewrite hidden2_chords_length in Hrow.
    change (length (@nil string)) with 0%nat in Hrow.
    change (map (member T note) [] ++ zeros 84) with (zeros 84) in Hrow.
    rewrite Hrow. cbn [mbind result_bind].
    specialize (IH (pre ++ [membership_row T note]) Hall).
    rewrite length_app, Nat.add_1_r, <- !app_assoc in IH. exact IH.
Qed.

Lemma chords_to_notes_ok :
  Mnet.table_complete T ->
  Mnet.chords_to_notes T 145 84 = Ok (membership_matrix T).
Proof.
  intros Hall. unfold Mnet.chords_to_notes.
  change (repeat (zeros 84) 145) with (zeros 84 :: repeat (zeros 84) 144).
  change (<[0%nat := ones 84]> (zeros 84 :: repeat (zeros 84) 144))
    with ([ones 84] ++ repeat (zeros 84) 144).
  rewrite <- tail_output_notes_length.
  exact (fill_rows_ok (tail Mnet.output_notes) [ones 84] Hall).
Qed.

Lemma chords_to_notes_missing :
  ~ Mnet.table_complete T ->
  Mnet.chords_to_notes T 145 84 = Raise TypeError.
Proof.
  intros Hnot. apply not_Forall_Exists in Hnot; [|apply _].
  assert (Exists (fun chord => T !! chord = None) Mnet.hidden2_chords) as Hex.
  { eapply Exists_impl; [exact Hnot|]. intros chord Hc. by apply eq_None_not_Some. }
  unfold Mnet.chords_to_notes.
  destruct (tail Mnet.output_notes) as [|note notes] eqn:Hnotes; [discriminate|].
  cbn [Mnet.fill_rows]. by rewrite fill_row_missing.
Qed.

(** *** The network the constructor returns *)

Variable rng : nat -> nat -> nat -> R.
Variables (hidden1_size : nat) (lr weight_decay : R).
Variables (chord_weights melody_weights state_units_decay : R).
Variable model_name : string.

Local Abbreviation init :=
  (Mnet.MelodyNet_init T rng hidden1_size lr weight_decay chord_weights
     melody_weights state_units_decay model_name).

Lemma MelodyNet_init_ok :
  Mnet.table_complete T ->
  exists net,
    init = Ok net
    /\ Mnet.data (Mnet.weight (Mnet.output net))
       = Mnet.balance_and_scale melody_weights (membership_matrix T)
    /\ Mnet.requires_grad (Mnet.weight (Mnet.output net)) = false
    /\ Mnet.data (Mnet.weight (Mnet.hidden2_from_chord net))
       = fill_diagonal_ chord_weights (Mnet.random_tensor rng 4 84 84)
    /\ Mnet.requires_grad (Mnet.weight (Mnet.hidden2_from_chord net)) = true
    /\ Mnet.lr net = lr
    /\ Mnet.weight_decay net = weight_decay.
Proof.
  intros Hall. unfold Mnet.MelodyNet_init, Mnet.fixed_output_weights.
  cbv zeta. rewrite (chords_to_notes_ok Hall). cbn [mbind result_bind mret result_ret].
  eexists. split; [reflexivity|]. cbn. repeat split; reflexivity.
Qed.

Lemma MelodyNet_init_missing :
  ~ Mnet.table_complete T -> init = Raise TypeError.
Proof.
  intros Hnot. unfold Mnet.MelodyNet_init, Mnet.fixed_output_weights.
  cbv zeta. by rewrite (chords_to_notes_missing Hnot).
Qed.

(** *** Rows of the membership matrix *)

Lemma member_01 (note chord : string) :
  member T note chord = 0 \/ member T note chord = 1.
Proof. unfold member. destruct (from_option _ _ _); auto. Qed.

Lemma membership_row_nonneg (note : string) :
  Forall (fun a => 0 <= a) (membership_row T note).
Proof.
  unfold membership_row. apply Forall_forall. intros a Ha.
  to_fmap. apply list_elem_of_fmap in Ha as (chord & -> & _).
  destruct (member_01 note chord) as [-> | ->]; lra.
Qed.

Lemma membership_row_sum (note : string) :
  Mnet.notes_covered T -> note ∈ Mnet.chromatic_notes ->
  1 <= vsum (membership_row T note).
Proof.
  intros Hcov Hnote.
  unfold Mnet.notes_covered in Hcov. rewrite Forall_forall in Hcov.
  specialize (Hcov note Hnote). apply Exists_exists in Hcov as (chord & Hin & Hm).
  apply vsum_ge_member; [apply membership_row_nonneg|].
  unfold membership_row. to_fmap. apply list_elem_of_fmap.
  exists chord. split; [|exact Hin]. unfold member. by rewrite Hm.
Qed.

Lemma output_notes_chromatic :
  Forall (fun note => note ∈ Mnet.chromatic_notes) (tail Mnet.output_notes).
Proof. apply (bool_decide_unpack _). vm_compute. exact I. Qed.

(** The rows [1 + 12 k .. 12 + 12 k] carry the [k]-th chromatic note. *)
Lemma output_notes_block :
  Forall (fun n => tail Mnet.output_notes !! n = Mnet.chromatic_notes !! (n / 12)%nat)
    (seq 0 144).
Proof. apply (bool_decide_unpack _). vm_compute. exact I. Qed.

Lemma membership_matrix_length : length (membership_matrix T) = 145%nat.
Proof.
  unfold membership_matrix. cbn [length]. by rewrite length_map, tail_output_notes_length.
Qed.

Lemma membership_matrix_row_sum (i : nat) (row : list R) :
  Mnet.notes_covered T ->
  membership_matrix T !! i = Some row -> 1 <= vsum row.
Proof.
  intros Hcov Hrow. destruct i as [|i].
  - injection Hrow as <-. unfold ones. rewrite vsum_repeat. simpl. lra.
  - unfold membership_matrix in Hrow.
    change (map (membership_row T) (tail Mnet.output_notes))
      with (membership_row T <$> tail Mnet.output_notes) in Hrow.
    rewrite lookup_cons_ne_0 in Hrow by lia. cbn [pred] in Hrow.
    rewrite list_lookup_fmap in Hrow.
    destruct (tail Mnet.output_notes !! i) as [note|] eqn:Hnote; [|discriminate].
    injection Hrow as <-. apply membership_row_sum; [exact Hcov|].
    pose proof output_notes_chromatic as Hall. rewrite Forall_forall in Hall.
    apply Hall. eapply list_elem_of_lookup_2. exact Hnote.
Qed.

Lemma balance_and_scale_lookup (mw : R) (M : list (list R)) (i : nat) :
  Mnet.balance_and_scale mw M !! i
  = (fun row => map (fun a => a * mw) (div_scalar row (vsum row))) <$> M !! i.
Proof. unfold Mnet.balance_and_scale. to_fmap. by rewrite list_lookup_fmap. Qed.

Lemma balanced_row_sum (mw : R) (row : list R) :
  vsum row <> 0 ->
  vsum (map (fun a => a * mw) (div_scalar row (vsum row))) = mw.
Proof.
  intros Hs. rewrite vsum_map_mult_r, vsum_div_scalar. by field.
Qed.

(** *** The chord-to-hidden2 weight *)

Lemma random_tensor_lookup (k rows cols i : nat) :
  (i < rows)%nat ->
  Mnet.random_tensor rng k rows cols !! i = Some (map (fun j => rng k i j) (seq 0 cols)).
Proof.
  intros Hi. unfold Mnet.random_tensor. to_fmap.
  by rewrite list_lookup_fmap, lookup_seq_lt.
Qed.

Lemma fill_diagonal_entry (v : R) (k rows cols i j : nat) :
  (i < rows)%nat -> (j < cols)%nat ->
  entry (fill_diagonal_ v (Mnet.random_tensor rng k rows cols)) i j
  = Some (if decide (i = j) then v else rng k i j).
Proof.
  intros Hi Hj. unfold entry, fill_diagonal_.
  rewrite list_lookup_imap, random_tensor_lookup by exact Hi. cbn.
  assert ((map (fun j0 => rng k i j0) (seq 0 cols)) !! j = Some (rng k i j)) as Hrow.
  { to_fmap. by rewrite list_lookup_fmap, lookup_seq_lt. }
  destruct (decide (i = j)) as [->|Hne].
  - apply list_lookup_insert_eq. by rewrite length_map, length_seq.
  - by rewrite list_lookup_insert_ne.
Qed.

End ConstructionFacts.

Lemma entry_zip_with (f : R -> R -> R) (A B : list (list R)) (i j : nat) :
  entry (zip_with (zip_with f) A B) i j
  = match entry A i j, entry B i j with
    | Some a, Some b => Some (f a b)
    | _, _ => None
    end.
Proof.
  unfold entry. rewrite lookup_zip_with.
  destruct (A !! i) as [ra|]; [|done]. cbn.
  destruct (B !! i) as [rb|]; cbn.
  - rewrite lookup_zip_with. destruct (ra !! j); [|done]. cbn. by destruct (rb !! j).
  - by destruct (ra !! j).
Qed.

(** ** Properties of the constructor *)

(** C1.  When the chord table has an entry for each of the 84 chords and
    every chromatic note belongs to at least one chord, the constructor
    returns a network; each of the 145 rows of the membership matrix (the
    rest row included) has a non-zero sum, so the normalisation never
    divides by zero, and each of the 145 rows of the output weight sums to
    [melody_weights]. *)
Theorem C1_rows_sum_to_melody_weights
    (T : gmap string (list string)) (rng : nat -> nat -> nat -> R)
    (hidden1_size : nat) (lr weight_decay cw mw decay : R) (name : string) :
  Mnet.table_complete T ->
  Mnet.notes_covered T ->
  exists M net,
    Mnet.chords_to_notes T 145 84 = Ok M
    /\ Mnet.MelodyNet_init T rng hidden1_size lr weight_decay cw mw decay name = Ok net
    /\ length M = 145%nat
    /\ length (Mnet.data (Mnet.weight (Mnet.output net))) = 145%nat
    /\ (forall i row, M !! i = Some row -> vsum row <> 0)
    /\ (forall i row,
          Mnet.data (Mnet.weight (Mnet.output net)) !! i = Some row ->
          vsum row = mw).
Proof.
  intros Hall Hcov.
  destruct (MelodyNet_init_ok T rng hidden1_size lr weight_decay cw mw decay name Hall)
    as (net & Hnet & HW & _).
  exists (membership_matrix T), net.
  split; [by apply chords_to_notes_ok|]. split; [exact Hnet|].
  split; [apply membership_matrix_length|]. rewrite HW. split.
  { unfold Mnet.balance_and_scale. by rewrite length_map, membership_matrix_length. }
  split.
  - intros i row Hrow. pose proof (membership_matrix_row_sum T i row Hcov Hrow). lra.
  - intros i row Hrow. rewrite balance_and_scale_lookup in Hrow.
    destruct (membership_matrix T !! i) as [c|] eqn:Hc; [|discriminate].
    injection Hrow as <-. apply balanced_row_sum.
    pose proof (membership_matrix_row_sum T i c Hcov Hc). lra.
Qed.

Lemma C1_witness :
  Mnet.table_complete Sample.CHORD_NOTES
  /\ Mnet.notes_covered Sample.CHORD_NOTES
  /\ exists M net,
       Mnet.chords_to_notes Sample.CHORD_NOTES 145 84 = Ok M
       /\ Mnet.MelodyNet_init Sample.CHORD_NOTES Sample.rng 64 (1/100) 0 1 10 (1/2)
            "hnn" = Ok net
       /\ length M = 145%nat
       /\ length (Mnet.data (Mnet.weight (Mnet.output net))) = 145%nat
       /\ (forall i row, M !! i = Some row -> vsum row <> 0)
       /\ (forall i row,
             Mnet.data (Mnet.weight (Mnet.output net)) !! i = Some row ->
             vsum row = 10).
Proof.
  assert (Mnet.table_complete Sample.CHORD_NOTES) as Hall.
  { apply (bool_decide_unpack _). vm_compute. exact I. }
  assert (Mnet.notes_covered Sample.CHORD_NOTES) as Hcov.
  { apply (bool_decide_unpack _). vm_compute. exact I. }
  split; [exact Hall|]. split; [exact Hcov|].
  exact (C1_rows_sum_to_melody_weights Sample.CHORD_NOTES Sample.rng 64 (1/100) 0 1
           10 (1/2) "hnn" Hall Hcov).
Defined.

(** C10.  In the membership matrix and in the output weight the constructor
    builds, the twelve rows [1 + 12 k + r], [r < 12], of the [k]-th
    chromatic note exist and are all equal: octave and lifespan play no
    part. *)
Theorem C10_rows_of_a_pitch_class_agree
    (T : gmap string (list string)) (rng : nat -> nat -> nat -> R)
    (hidden1_size : nat) (lr weight_decay cw mw decay : R) (name : string) :
  Mnet.table_complete T ->
  exists M net,
    Mnet.chords_to_notes T 145 84 = Ok M
    /\ Mnet.MelodyNet_init T rng hidden1_size lr weight_decay cw mw decay name = Ok net
    /\ forall k r r' : nat, (k < 12)%nat -> (r < 12)%nat -> (r' < 12)%nat ->
         is_Some (M !! (1 + 12 * k + r)%nat)
         /\ M !! (1 + 12 * k + r)%nat = M !! (1 + 12 * k + r')%nat
         /\ is_Some (Mnet.data (Mnet.weight (Mnet.output net)) !! (1 + 12 * k + r)%nat)
         /\ Mnet.data (Mnet.weight (Mnet.output net)) !! (1 + 12 * k + r)%nat
            = Mnet.data (Mnet.weight (Mnet.output net)) !! (1 + 12 * k + r')%nat.
Proof.
  intros Hall.
  destruct (MelodyNet_init_ok T rng hidden1_size lr weight_decay cw mw decay name Hall)
    as (net & Hnet & HW & _).
  exists (membership_matrix T), net.
  split; [by apply chords_to_notes_ok|]. split; [exact Hnet|].
  assert (forall k r : nat, (k < 12)%nat -> (r < 12)%nat ->
            membership_matrix T !! (1 + 12 * k + r)%nat
            = membership_row T <$> Mnet.chromatic_notes !! k) as Hblock.
  { intros k r Hk Hr. unfold membership_matrix.
    change (map (membership_row T) (tail Mnet.output_notes))
      with (membership_row T <$> tail Mnet.output_notes).
    change (1 + 12 * k + r)%nat with (S (12 * k + r)).
    rewrite lookup_cons_ne_0 by lia. cbn [pred].
    rewrite list_lookup_fmap.
    pose proof output_notes_block as Hb. rewrite Forall_forall in Hb.
    rewrite (Hb (12 * k + r)%nat) by (apply elem_of_seq; lia).
    replace ((12 * k + r) / 12)%nat with k; [done|].
    apply (Nat.div_unique _ 12 k r); lia. }
  intros k r r' Hk Hr Hr'.
  rewrite HW, !balance_and_scale_lookup, !(Hblock k) by assumption.
  destruct (lookup_lt_is_Some_2 Mnet.chromatic_notes k) as [note Hnote].
  { exact Hk. }
  rewrite Hnote. cbn. eauto.
Qed.

Lemma C10_witness :
  Mnet.table_complete Sample.CHORD_NOTES
  /\ exists M net,
       Mnet.chords_to_notes Sample.CHORD_NOTES 145 84 = Ok M
       /\ Mnet.MelodyNet_init Sample.CHORD_NOTES Sample.rng 64 (1/100) 0 1 10 (1/2)
            "hnn" = Ok net
       /\ forall k r r' : nat, (k < 12)%nat -> (r < 12)%nat -> (r' < 12)%nat ->
            is_Some (M !! (1 + 12 * k + r)%nat)
            /\ M !! (1 + 12 * k + r)%nat = M !! (1 + 12 * k + r')%nat
            /\ is_Some (Mnet.data (Mnet.weight (Mnet.output net)) !! (1 + 12 * k + r)%nat)
            /\ Mnet.data (Mnet.weight (Mnet.output net)) !! (1 + 12 * k + r)%nat
               = Mnet.data (Mnet.weight (Mnet.output net)) !! (1 + 12 * k + r')%nat.
Proof.
  assert (Mnet.table_complete Sample.CHORD_NOTES) as Hall.
  { apply (bool_decide_unpack _). vm_compute. exact I. }
  split; [exact Hall|].
  exact (C10_rows_of_a_pitch_class_agree Sample.CHORD_NOTES Sample.rng 64 (1/100) 0 1
           10 (1/2) "hnn" Hall).
Defined.

(** C6, as the constructor behaves.  When the chord table lacks an entry
    for one of the 84 chord labels, [CHORD_NOTES.get] returns [None], the
    membership test iterates it, and the constructor fails with a TypeError;
    no network and no partially filled matrix is returned. *)
Theorem C6_missing_chord_raises_TypeError
    (T : gmap string (list string)) (rng : nat -> nat -> nat -> R)
    (hidden1_size : nat) (lr weight_decay cw mw decay : R) (name : string) :
  ~ Mnet.table_complete T ->
  Mnet.MelodyNet_init T rng hidden1_size lr weight_decay cw mw decay name
  = Raise TypeError.
Proof. apply MelodyNet_init_missing. Qed.

Lemma C6_witness :
  ~ Mnet.table_complete Sample.CHORD_NOTES_without_Cmaj
  /\ Mnet.MelodyNet_init Sample.CHORD_NOTES_without_Cmaj Sample.rng 64 (1/100) 0 1
       10 (1/2) "hnn" = Raise TypeError.
Proof.
  assert (~ Mnet.table_complete Sample.CHORD_NOTES_without_Cmaj) as Hnot.
  { apply (bool_decide_unpack _). vm_compute. exact I. }
  split; [exact Hnot|].
  exact (C6_missing_chord_raises_TypeError Sample.CHORD_NOTES_without_Cmaj Sample.rng
           64 (1/100) 0 1 10 (1/2) "hnn" Hnot).
Defined.

(** C6 as stated fails: with the entry of [Cmaj] missing, the exception is
    a TypeError, not a ConfigurationError. *)
Lemma C6_counterexample :
  ~ Mnet.table_complete Sample.CHORD_NOTES_without_Cmaj
  /\ Mnet.MelodyNet_init Sample.CHORD_NOTES_without_Cmaj Sample.rng 64 (1/100) 0 1
       10 (1/2) "hnn" = Raise TypeError
  /\ Mnet.MelodyNet_init Sample.CHORD_NOTES_without_Cmaj Sample.rng 64 (1/100) 0 1
       10 (1/2) "hnn" <> Raise (UserError "ConfigurationError").
Proof.
  assert (~ Mnet.table_complete Sample.CHORD_NOTES_without_Cmaj) as Hnot.
  { apply (bool_decide_unpack _). vm_compute. exact I. }
  split; [exact Hnot|].
  rewrite (MelodyNet_init_missing _ Sample.rng 64 (1/100) 0 1 10 (1/2) "hnn" Hnot).
  split; [reflexivity|discriminate].
Qed.

(** C3, as the constructor behaves.  After construction the diagonal of the
    84 x 84 chord-to-hidden2 weight holds [chord_weights]; an entry off the
    diagonal keeps the value the default initialisation drew for it. *)
Theorem C3_diagonal_set_rest_as_drawn
    (T : gmap string (list string)) (rng : nat -> nat -> nat -> R)
    (hidden1_size : nat) (lr weight_decay cw mw decay : R) (name : string) :
  Mnet.table_complete T ->
  exists net,
    Mnet.MelodyNet_init T rng hidden1_size lr weight_decay cw mw decay name = Ok net
    /\ forall i j : nat, (i < 84)%nat -> (j < 84)%nat ->
         entry (Mnet.data (Mnet.weight (Mnet.hidden2_from_chord net))) i j
         = Some (if decide (i = j) then cw else rng 4%nat i j).
Proof.
  intros Hall.
  destruct (MelodyNet_init_ok T rng hidden1_size lr weight_decay cw mw decay name Hall)
    as (net & Hnet & _ & _ & HW & _).
  exists net. split; [exact Hnet|]. intros i j Hi Hj.
  rewrite HW. by apply fill_diagonal_entry.
Qed.

Lemma C3_witness :
  Mnet.table_complete Sample.CHORD_NOTES
  /\ exists net,
       Mnet.MelodyNet_init Sample.CHORD_NOTES Sample.rng 64 (1/100) 0 1 10 (1/2)
         "hnn" = Ok net
       /\ forall i j : nat, (i < 84)%nat -> (j < 84)%nat ->
            entry (Mnet.data (Mnet.weight (Mnet.hidden2_from_chord net))) i j
            = Some (if decide (i = j) then 1 else Sample.rng 4%nat i j).
Proof.
  assert (Mnet.table_complete Sample.CHORD_NOTES) as Hall.
  { apply (bool_decide_unpack _). vm_compute. exact I. }
  split; [exact Hall|].
  exact (C3_diagonal_set_rest_as_drawn Sample.CHORD_NOTES Sample.rng 64 (1/100) 0 1
           10 (1/2) "hnn" Hall).
Defined.

(** C3 as stated fails: with every initial weight drawn as [1/16], the
    entry in row 0 and column 1 of the chord-to-hidden2 weight is [1/16]
    after construction, not [0]. *)
Lemma C3_counterexample :
  exists net,
    Mnet.MelodyNet_init Sample.CHORD_NOTES Sample.rng 64 (1/100) 0 1 10 (1/2)
      "hnn" = Ok net
    /\ entry (Mnet.data (Mnet.weight (Mnet.hidden2_from_chord net))) 0 1
       = Some (1 / 16)
    /\ 1 / 16 <> 0.
Proof.
  assert (Mnet.table_complete Sample.CHORD_NOTES) as Hall.
  { apply (bool_decide_unpack _). vm_compute. exact I. }
  destruct (MelodyNet_init_ok Sample.CHORD_NOTES Sample.rng 64 (1/100) 0 1 10 (1/2)
              "hnn" Hall) as (net & Hnet & _ & _ & HW & _).
  exists net. split; [exact Hnet|]. split; [|lra].
  rewrite HW, fill_diagonal_entry by lia. reflexivity.
Qed.

(** ** The optimizer step *)

Lemma sgd_step_frozen (net : Mnet.MelodyNet) (grad : nat -> list (list R)) :
  Mnet.requires_grad (Mnet.weight (Mnet.output net)) = false ->
  Mnet.weight (Mnet.output (Mnet.sgd_step net grad)) = Mnet.weight (Mnet.output net).
Proof.
  intros Hflag. cbn. unfold Mnet.sgd_param. by rewrite Hflag.
Qed.

Lemma sgd_step_chord_entry (net : Mnet.MelodyNet) (grad : nat -> list (list R))
    (i j : nat) (w g : R) :
  Mnet.requires_grad (Mnet.weight (Mnet.hidden2_from_chord net)) = true ->
  entry (Mnet.data (Mnet.weight (Mnet.hidden2_from_chord net))) i j = Some w ->
  entry (grad 4%nat) i j = Some g ->
  entry (Mnet.data (Mnet.weight (Mnet.hidden2_from_chord (Mnet.sgd_step net grad)))) i j
  = Some (w - Mnet.lr net * (g + Mnet.weight_decay net * w)).
Proof.
  intros Hflag Hw Hg. cbn. unfold Mnet.sgd_param. rewrite Hflag. cbn.
  by rewrite entry_zip_with, Hw, Hg.
Qed.

(** C4, where the constructor falls short of it.  The network is built with
    [chord_weights = 1], [lr = 1/100] and no weight decay.  The output
    weight has [requires_grad] off and no optimizer step changes it; the
    chord-to-hidden2 weight has [requires_grad] on, and one step with a
    gradient of [1] moves its first diagonal entry from [1] to [99/100]. *)
Theorem C4_chord_diagonal_is_not_frozen :
  exists net,
    Mnet.MelodyNet_init Sample.CHORD_NOTES Sample.rng 64 (1/100) 0 1 10 (1/2)
      "hnn" = Ok net
    /\ Mnet.requires_grad (Mnet.weight (Mnet.output net)) = false
    /\ (forall grad,
          Mnet.weight (Mnet.output (Mnet.sgd_step net grad))
          = Mnet.weight (Mnet.output net))
    /\ Mnet.requires_grad (Mnet.weight (Mnet.hidden2_from_chord net)) = true
    /\ entry (Mnet.data (Mnet.weight (Mnet.hidden2_from_chord net))) 0 0 = Some 1
    /\ entry (Mnet.data (Mnet.weight
                (Mnet.hidden2_from_chord (Mnet.sgd_step net Sample.unit_grad)))) 0 0
       = Some (99 / 100)
    /\ 99 / 100 <> 1.
Proof.
  assert (Mnet.table_complete Sample.CHORD_NOTES) as Hall.
  { apply (bool_decide_unpack _). vm_compute. exact I. }
  destruct (MelodyNet_init_ok Sample.CHORD_NOTES Sample.rng 64 (1/100) 0 1 10 (1/2)
              "hnn" Hall) as (net & Hnet & _ & Hout & HW & Hflag & Hlr & Hwd).
  assert (entry (Mnet.data (Mnet.weight (Mnet.hidden2_from_chord net))) 0 0 = Some 1)
    as Hdiag.
  { rewrite HW, fill_diagonal_entry by lia. reflexivity. }
  exists net. split; [exact Hnet|]. split; [exact Hout|].
  split; [intros grad; by apply sgd_step_frozen|].
  split; [exact Hflag|]. split; [exact Hdiag|]. split; [|lra].
  rewrite (sgd_step_chord_entry net Sample.unit_grad 0 0 1 1 Hflag Hdiag)
    by reflexivity.
  rewrite Hlr, Hwd. f_equal. lra.
Qed.

(** ** Logging computations *)

Section IoFacts.

Context {A B : Type}.

Lemma io_bind_ok (m : Play.io A) (f : A -> Play.io B) (l : list Play.event) (a : A) :
  m = (l, Ok a) -> m ≫= f = (l ++ fst (f a), snd (f a)).
Proof. intros ->. cbn. by destruct (f a). Qed.

Lemma io_bind_raise (m : Play.io A) (f : A -> Play.io B) (l : list Play.event) (e : exn) :
  m = (l, Raise e) -> m ≫= f = (l, Raise e).
Proof. by intros ->. Qed.

Lemma io_sat_bind (P : Play.event -> Prop) (Q : A -> Prop) (Q' : B -> Prop)
    (m : Play.io A) (f : A -> Play.io B) :
  io_sat P Q m -> (forall a, Q a -> io_sat P Q' (f a)) -> io_sat P Q' (m ≫= f).
Proof.
  intros [Hl Hq] Hf. destruct m as [l [a|e]].
  - rewrite (io_bind_ok _ f l a eq_refl).
    destruct (Hf a (Hq a eq_refl)) as [Hl' Hq'].
    split; [apply Forall_app; split; assumption|exact Hq'].
  - rewrite (io_bind_raise _ f l e eq_refl). split; [exact Hl|discriminate].
Qed.

Lemma io_sat_lift (P : Play.event -> Prop) (Q : A -> Prop) (r : result A) :
  (forall a, r = Ok a -> Q a) -> io_sat P Q (Play.lift r).
Proof. intros Hr. split; [constructor|exact Hr]. Qed.

Lemma io_sat_ret (P : Play.event -> Prop) (Q : A -> Prop) (a : A) :
  Q a -> io_sat P Q (mret a).
Proof. intros Ha. split; [constructor|]. intros a' [= <-]. exact Ha. Qed.

Lemma io_sat_weaken (P P' : Play.event -> Prop) (Q Q' : A -> Prop) (m : Play.io A) :
  (forall e, P e -> P' e) -> (forall a, Q a -> Q' a) -> io_sat P Q m -> io_sat P' Q' m.
Proof.
  intros HP HQ [Hl Hq].
  split; [eapply Forall_impl; eassumption|]. intros a Ha. apply HQ, Hq, Ha.
Qed.

End IoFacts.

Lemma io_sat_emit (P : Play.event -> Prop) (Q : unit -> Prop) (e : Play.event) :
  P e -> Q tt -> io_sat P Q (Play.emit e).
Proof.
  intros He Hq. split; [by constructor|]. intros [] _. exact Hq.
Qed.

(** ** Python strings *)

Lemma slice_to_short (k : string) : (String.length k <= 2)%nat -> slice_to 2 k = k.
Proof.
  destruct k as [|a [|b [|c k]]]; cbn; intros H; try reflexivity. lia.
Qed.

Lemma char_at_short (k : string) :
  (String.length k <= 2)%nat -> char_at 2 k = Raise IndexError.
Proof.
  destruct k as [|a [|b [|c k]]]; cbn; intros H; try reflexivity. lia.
Qed.

(** ** The state update *)

Lemma zip_plus_scale0 (x y : list R) :
  length x = length y ->
  map (fun p => fst p + snd p) (combine x (scale 0 y)) = x.
Proof.
  unfold scale. revert y. induction x as [|a x IH]; intros [|b y] Hlen;
    try discriminate; [reflexivity|].
  injection Hlen as Hlen. cbn. rewrite (IH y Hlen). f_equal. lra.
Qed.

Lemma renormalize_distribution (s : list R) : vsum s = 1 -> Play.renormalize s = s.
Proof.
  intros Hs. unfold Play.renormalize, div_scalar. rewrite Hs.
  rewrite <- (map_id s) at 2. apply map_ext. intros a. lra.
Qed.

Lemma blend_ok (decay : R) (output s : list R) :
  length output = length s ->
  Play.blend decay output s
  = Ok (map (fun p => fst p + snd p) (combine (softmax output) (scale decay s))).
Proof.
  intros Hlen. unfold Play.blend. apply add_same_length.
  by rewrite softmax_length, scale_length.
Qed.

Lemma zip_plus_pos (x y : list R) :
  length x = length y ->
  Forall (fun a => 0 < a) x -> Forall (fun a => 0 <= a) y ->
  Forall (fun a => 0 < a) (map (fun p => fst p + snd p) (combine x y)).
Proof.
  intros Hlen Hx. revert y Hlen. induction Hx as [|a x Ha Hx IH];
    intros [|b y] Hlen Hy; try discriminate; [constructor|].
  injection Hlen as Hlen. apply Forall_cons in Hy as [Hb Hy]. cbn.
  constructor; [lra|by apply IH].
Qed.

Lemma scale_nonneg (c : R) (x : list R) :
  0 <= c -> Forall (fun a => 0 <= a) x -> Forall (fun a => 0 <= a) (scale c x).
Proof.
  intros Hc Hx. unfold scale. induction Hx as [|a x Ha Hx IH]; cbn; constructor.
  - by apply Rmult_le_pos.
  - exact IH.
Qed.

(** The blended state has a sum of at least one, and its quotient by that
    sum is a distribution of the same width. *)
Lemma blend_sum (decay : R) (output s : list R) :
  let b := map (fun p => fst p + snd p) (combine (softmax output) (scale decay s)) in
  length output = length s -> output <> [] ->
  0 <= decay -> Forall (fun a => 0 <= a) s ->
  1 <= vsum b
  /\ length (Play.renormalize b) = length s
  /\ distribution (Play.renormalize b).
Proof.
  intros b Hlen Hne Hdecay Hs.
  assert (length (softmax output) = length (scale decay s)) as Hlen'.
  { by rewrite softmax_length, scale_length. }
  assert (vsum b = 1 + decay * vsum s) as Hsum.
  { unfold b. by rewrite vsum_zip_plus, softmax_sum, vsum_scale. }
  pose proof (vsum_nonneg s Hs) as Hs0.
  assert (1 <= vsum b) as Hb by (rewrite Hsum; nra).
  assert (Forall (fun a => 0 < a) b) as Hpos.
  { apply zip_plus_pos; [exact Hlen'|apply softmax_pos|by apply scale_nonneg]. }
  split; [exact Hb|]. split.
  { unfold Play.renormalize, div_scalar, b.
    rewrite !length_map, length_combine, Hlen', Nat.min_id. apply scale_length. }
  split.
  - unfold Play.renormalize, div_scalar. apply Forall_forall. intros a Ha.
    to_fmap. apply list_elem_of_fmap in Ha as (c & -> & Hc).
    rewrite Forall_forall in Hpos. specialize (Hpos c Hc).
    apply Rlt_le, Rdiv_lt_0_compat; lra.
  - unfold Play.renormalize. rewrite vsum_div_scalar. field. lra.
Qed.

(** ** The loop of [play_song] *)

Section DriverFacts.

Variable NOTE_ENC_TO_IDX_REF : gmap string Z.
Variable NOTE_ENC_TO_NOTE_STR_REF : gmap string string.
Variable IDX_TO_CHORD_STR_REF : gmap nat string.
Variable CHORD_NOTES : gmap string (list string).
Variable NOTE_FREQUENCIES : gmap string R.
Variable hnn : Play.Network.

Local Abbreviation melody_input := (Play.melody_input NOTE_ENC_TO_IDX_REF).
Local Abbreviation recurrence := (Play.recurrence NOTE_ENC_TO_IDX_REF hnn).
Local Abbreviation note_string := (Play.note_string NOTE_ENC_TO_NOTE_STR_REF).
Local Abbreviation play_note := (Play.play_note NOTE_FREQUENCIES).
Local Abbreviation play_notes := (Play.play_notes NOTE_FREQUENCIES).
Local Abbreviation play_chord := (Play.play_chord CHORD_NOTES NOTE_FREQUENCIES).
Local Abbreviation play_comp := (Play.play_comp CHORD_NOTES NOTE_FREQUENCIES).
Local Abbreviation playback :=
  (Play.playback NOTE_ENC_TO_NOTE_STR_REF IDX_TO_CHORD_STR_REF CHORD_NOTES
     NOTE_FREQUENCIES).
Local Abbreviation timestep_body :=
  (Play.timestep_body NOTE_ENC_TO_IDX_REF NOTE_ENC_TO_NOTE_STR_REF
     IDX_TO_CHORD_STR_REF CHORD_NOTES NOTE_FREQUENCIES hnn).
Local Abbreviation play_loop :=
  (Play.play_loop NOTE_ENC_TO_IDX_REF NOTE_ENC_TO_NOTE_STR_REF
     IDX_TO_CHORD_STR_REF CHORD_NOTES NOTE_FREQUENCIES hnn).
Local Abbreviation play_song :=
  (Play.play_song NOTE_ENC_TO_IDX_REF NOTE_ENC_TO_NOTE_STR_REF
     IDX_TO_CHORD_STR_REF CHORD_NOTES NOTE_FREQUENCIES hnn).
Local Abbreviation n := (Play.output_size hnn).
Local Abbreviation decay := (Play.state_units_decay hnn).

Lemma eye_index_cases (m : nat) (i : Z) :
  (exists j, Play.eye_index m i = Ok (eye_row m j))
  \/ Play.eye_index m i = Raise IndexError.
Proof.
  unfold Play.eye_index. repeat case_decide; eauto.
Qed.

Lemma melody_input_cases (note : string) :
  (exists v, melody_input note = Ok v /\ length v = 12%nat)
  \/ melody_input note = Raise IndexError.
Proof.
  unfold Play.melody_input.
  destruct (NOTE_ENC_TO_IDX_REF !! slice_to 2 note) as [i|].
  - destruct (eye_index_cases 12 i) as [[j ->] | ->]; [left|by right].
    eexists. split; [reflexivity|apply eye_row_length].
  - left. eexists. split; [reflexivity|]. apply repeat_length.
Qed.

Lemma melody_input_ok (note : string) :
  indices_in_range NOTE_ENC_TO_IDX_REF ->
  exists v, melody_input note = Ok v /\ length v = 12%nat.
Proof.
  intros Hrange. unfold Play.melody_input.
  destruct (NOTE_ENC_TO_IDX_REF !! slice_to 2 note) as [i|] eqn:Hi.
  - specialize (Hrange _ _ Hi). unfold Play.eye_index.
    repeat case_decide; try lia; eexists; (split; [reflexivity|apply eye_row_length]).
  - eexists. split; [reflexivity|apply repeat_length].
Qed.

Lemma meter_units_length (t : nat) : length (Play.meter_units t) = 2%nat.
Proof. apply eye_row_length. Qed.

(** What lines 133-154 do with a well-shaped network: either the melody
    index is out of range, or the network is run and both assignments to
    [state_units] take place. *)
Lemma recurrence_cases (t : nat) (s : list R) (note : string) :
  well_shaped hnn -> length s = n ->
  (melody_input note = Raise IndexError
   /\ recurrence t s note = ([], Raise IndexError))
  \/ exists input_t output,
       melody_input note = Ok input_t
       /\ length input_t = 12%nat
       /\ Play.call hnn (s ++ input_t ++ Play.meter_units t) = Ok output
       /\ length output = n
       /\ recurrence t s note
          = ([Play.StateBlended
                (map (fun p => fst p + snd p) (combine (softmax output) (scale decay s)));
              Play.StateNormalized
                (Play.renormalize
                   (map (fun p => fst p + snd p)
                      (combine (softmax output) (scale decay s))))],
             Ok (output,
                 Play.renormalize
                   (map (fun p => fst p + snd p)
                      (combine (softmax output) (scale decay s))))).
Proof.
  intros Hshape Hlen. unfold Play.recurrence, Play.inputs.
  destruct (melody_input_cases note) as [(v & Hv & Hv12) | Hraise].
  - right. rewrite Hv. cbn [mbind result_bind mret result_ret].
    destruct (Hshape (s ++ v ++ Play.meter_units t)) as (output & Hcall & Hout).
    { rewrite !length_app, Hv12, meter_units_length, Hlen. lia. }
    exists v, output. split; [reflexivity|]. repeat (split; [assumption|]).
    unfold Play.lift. cbn [mbind Play.io_bind mret result_ret]. rewrite Hcall.
    rewrite blend_ok by congruence. reflexivity.
  - left. split; [exact Hraise|]. by rewrite Hraise.
Qed.

Lemma recurrence_sat (t : nat) (s : list R) (note : string) :
  well_shaped hnn -> (0 < n)%nat -> 0 <= decay ->
  state_ok n s ->
  io_sat state_event_ok (fun r => state_ok n (snd r)) (recurrence t s note).
Proof.
  intros Hshape Hn Hdecay [Hlen Hs].
  destruct (recurrence_cases t s note Hshape Hlen)
    as [[_ ->] | (input_t & output & _ & _ & _ & Hout & ->)].
  - split; [constructor|discriminate].
  - assert (output <> []) as Hne by (destruct output; [cbn in Hout; lia|discriminate]).
    destruct (blend_sum decay output s) as (Hb & Hl & Hd); try assumption; [congruence|].
    split.
    + cbn [fst]. apply Forall_cons. split; [cbn; lra|].
      apply Forall_cons. split; [exact Hd|constructor].
    + intros r [= <-]. cbn [snd]. split; [congruence|apply Hd].
Qed.

Lemma recurrence_state_events (t : nat) (s : list R) (note : string) :
  well_shaped hnn -> length s = n ->
  Forall is_state_event (fst (recurrence t s note)).
Proof.
  intros Hshape Hlen.
  destruct (recurrence_cases t s note Hshape Hlen)
    as [[_ ->] | (input_t & output & _ & _ & _ & _ & ->)]; cbn [fst].
  - constructor.
  - apply Forall_cons. split; [exact I|]. apply Forall_cons. split; [exact I|constructor].
Qed.

(** *** Playback logs no state event *)

Lemma play_note_sat (note : option string) :
  io_sat is_playback_event (fun _ => True) (play_note note).
Proof.
  unfold Play.play_note. destruct note as [nt|]; [|by apply io_sat_lift].
  eapply io_sat_bind; [by apply (io_sat_lift _ (fun _ => True))|].
  intros _ _. by apply io_sat_emit.
Qed.

Lemma play_notes_sat (notes : list (option string)) :
  io_sat is_playback_event (fun _ => True) (play_notes notes).
Proof.
  induction notes as [|note notes IH]; cbn [Play.play_notes].
  - by apply io_sat_ret.
  - eapply io_sat_bind; [apply play_note_sat|]. intros _ _. exact IH.
Qed.

Lemma play_chord_sat (chord : option string) :
  io_sat is_playback_event (fun _ => True) (play_chord chord).
Proof.
  unfold Play.play_chord. destruct chord as [c|]; [|by apply io_sat_lift].
  eapply io_sat_bind; [by apply (io_sat_lift _ (fun _ => True))|]. intros chord_notes _.
  eapply io_sat_bind; [by apply (io_sat_lift _ (fun _ => True))|]. intros _ _.
  by apply io_sat_emit.
Qed.

Lemma play_comp_sat (notes : list (option string)) (chord : option string) :
  io_sat is_playback_event (fun _ => True) (play_comp notes chord).
Proof.
  unfold Play.play_comp.
  eapply io_sat_bind; [apply play_chord_sat|]. intros _ _.
  destruct notes as [|[nt|] notes].
  - by apply io_sat_lift.
  - apply play_notes_sat.
  - by apply io_sat_ret.
Qed.

Lemma playback_sat (note : string) (output : list R) :
  io_sat is_playback_event (fun _ => True) (playback note output).
Proof.
  unfold Play.playback.
  eapply io_sat_bind; [by apply (io_sat_lift _ (fun _ => True))|]. intros note_str _.
  eapply io_sat_bind; [by apply (io_sat_lift _ (fun _ => True))|]. intros chord_idx _.
  eapply io_sat_bind; [by apply (io_sat_emit _ (fun _ => True))|]. intros _ _.
  apply play_comp_sat.
Qed.

Lemma playback_event_ok (e : Play.event) : is_playback_event e -> state_event_ok e.
Proof. by destruct e. Qed.

(** *** The invariant of the loop *)

Lemma timestep_body_sat (t : nat) (s : list R) (note : string) :
  well_shaped hnn -> (0 < n)%nat -> 0 <= decay ->
  state_ok n s ->
  io_sat state_event_ok (state_ok n) (timestep_body t s note).
Proof.
  intros Hshape Hn Hdecay Hs. unfold Play.timestep_body.
  eapply io_sat_bind; [by apply recurrence_sat|]. intros r Hr.
  eapply io_sat_bind.
  - eapply io_sat_weaken; [exact playback_event_ok| |apply playback_sat].
    intros a Ha. exact Ha.
  - intros _ _. by apply io_sat_ret.
Qed.

Lemma play_loop_sat (song : list string) :
  well_shaped hnn -> (0 < n)%nat -> 0 <= decay ->
  forall (t : nat) (s : list R),
    state_ok n s ->
    io_sat state_event_ok (fun _ => True) (play_loop t s song).
Proof.
  intros Hshape Hn Hdecay. induction song as [|note song IH]; intros t s Hs.
  - by apply io_sat_ret.
  - cbn [Play.play_loop].
    eapply io_sat_bind; [by apply timestep_body_sat|].
    intros s' Hs'. by apply IH.
Qed.

Lemma zeros_state_ok (m : nat) : state_ok m (zeros m).
Proof.
  split; [apply repeat_length|].
  apply Forall_forall. intros a Ha. apply list_elem_of_In, repeat_spec in Ha. lra.
Qed.

End DriverFacts.

Section RunFacts.

Variable NOTE_ENC_TO_IDX_REF : gmap string Z.
Variable NOTE_ENC_TO_NOTE_STR_REF : gmap string string.
Variable IDX_TO_CHORD_STR_REF : gmap nat string.
Variable CHORD_NOTES : gmap string (list string).
Variable NOTE_FREQUENCIES : gmap string R.
Variable hnn : Play.Network.

Local Abbreviation recurrence := (Play.recurrence NOTE_ENC_TO_IDX_REF hnn).
Local Abbreviation playback :=
  (Play.playback NOTE_ENC_TO_NOTE_STR_REF IDX_TO_CHORD_STR_REF CHORD_NOTES
     NOTE_FREQUENCIES).
Local Abbreviation timestep_body :=
  (Play.timestep_body NOTE_ENC_TO_IDX_REF NOTE_ENC_TO_NOTE_STR_REF
     IDX_TO_CHORD_STR_REF CHORD_NOTES NOTE_FREQUENCIES hnn).
Local Abbreviation play_loop :=
  (Play.play_loop NOTE_ENC_TO_IDX_REF NOTE_ENC_TO_NOTE_STR_REF
     IDX_TO_CHORD_STR_REF CHORD_NOTES NOTE_FREQUENCIES hnn).
Local Abbreviation n := (Play.output_size hnn).
Local Abbreviation decay := (Play.state_units_decay hnn).

Hypothesis Hshape : well_shaped hnn.

Lemma count_events_app (p : Play.event -> bool) (l l' : list Play.event) :
  count_events p (l ++ l') = (count_events p l + count_events p l')%nat.
Proof. unfold count_events. by rewrite List.filter_app, length_app. Qed.

Lemma count_normalized_playback (l : list Play.event) :
  Forall is_playback_event l -> count_events is_normalized l = 0%nat.
Proof.
  induction 1 as [|e l He _ IH]; [reflexivity|].
  unfold count_events in *. cbn. destruct e; cbn in *; try done.
Qed.

Lemma count_printed_state (l : list Play.event) :
  Forall is_state_event l -> count_events is_printed l = 0%nat.
Proof.
  induction 1 as [|e l He _ IH]; [reflexivity|].
  unfold count_events in *. cbn. destruct e; cbn in *; try done.
Qed.

(** The body of the loop, once lines 133-154 are through. *)
Lemma timestep_body_unfold (t : nat) (s : list R) (note : string)
    (l : list Play.event) (output s' : list R) :
  recurrence t s note = (l, Ok (output, s')) ->
  timestep_body t s note
  = (l ++ fst (playback note output),
     match snd (playback note output) with
     | Ok _ => Ok s'
     | Raise e => Raise e
     end).
Proof.
  intros Hrec. unfold Play.timestep_body.
  rewrite (io_bind_ok _ _ l (output, s') Hrec). cbn [fst snd].
  destruct (playback note output) as [l' [[]|e]]; cbn; by rewrite ?app_nil_r.
Qed.

(** A timestep that returns has logged one normalised state and keeps the
    width of the state. *)
Lemma timestep_body_returns (t : nat) (s s' : list R) (note : string) :
  length s = n ->
  snd (timestep_body t s note) = Ok s' ->
  length s' = n
  /\ count_events is_normalized (fst (timestep_body t s note)) = 1%nat.
Proof.
  intros Hlen Hok.
  destruct (recurrence_cases NOTE_ENC_TO_IDX_REF hnn t s note Hshape Hlen)
    as [[_ Hrec] | (input_t & output & _ & _ & _ & Hout & Hrec)].
  - unfold Play.timestep_body in Hok.
    rewrite (io_bind_raise _ _ _ _ Hrec) in Hok. discriminate.
  - rewrite (timestep_body_unfold _ _ _ _ _ _ Hrec) in Hok |- *. cbn [fst snd] in *.
    destruct (playback_sat NOTE_ENC_TO_NOTE_STR_REF IDX_TO_CHORD_STR_REF CHORD_NOTES
                NOTE_FREQUENCIES note output) as [Hev _].
    destruct (snd (playback note output)); [|discriminate].
    injection Hok as <-. split.
    + unfold Play.renormalize, div_scalar.
      rewrite !length_map, length_combine, softmax_length, scale_length. lia.
    + rewrite count_events_app, (count_normalized_playback _ Hev). reflexivity.
Qed.

Lemma play_loop_returns (song : list string) :
  forall (t : nat) (s : list R),
    length s = n ->
    snd (play_loop t s song) = Ok tt ->
    count_events is_normalized (fst (play_loop t s song)) = length song.
Proof.
  induction song as [|note song IH]; intros t s Hlen Hok; [reflexivity|].
  cbn [Play.play_loop] in Hok |- *.
  destruct (timestep_body t s note) as [l [s'|e]] eqn:Hbody.
  - rewrite (io_bind_ok _ _ l s' eq_refl) in Hok |- *. cbn [fst snd] in *.
    destruct (timestep_body_returns t s s' note Hlen) as [Hlen' Hcount].
    { by rewrite Hbody. }
    rewrite Hbody in Hcount. cbn [fst] in Hcount.
    rewrite count_events_app, Hcount, (IH (S t) s' Hlen' Hok). reflexivity.
  - rewrite (io_bind_raise _ _ l e eq_refl) in Hok. discriminate.
Qed.

(** *** A symbol of at most two characters that names a note *)

Lemma playback_short (k name : string) (output : list R) :
  NOTE_ENC_TO_NOTE_STR_REF !! k = Some name ->
  (String.length k <= 2)%nat ->
  playback k output = ([], Raise IndexError).
Proof.
  intros Hk Hshort. unfold Play.playback, Play.note_string.
  by rewrite (slice_to_short k Hshort), Hk, (char_at_short k Hshort).
Qed.

Lemma timestep_body_short (t : nat) (s : list R) (k name : string) :
  length s = n ->
  NOTE_ENC_TO_NOTE_STR_REF !! k = Some name ->
  (String.length k <= 2)%nat ->
  snd (timestep_body t s k) = Raise IndexError
  /\ Forall is_state_event (fst (timestep_body t s k)).
Proof.
  intros Hlen Hk Hshort.
  pose proof (recurrence_state_events NOTE_ENC_TO_IDX_REF hnn t s k Hshape Hlen) as Hev.
  destruct (recurrence_cases NOTE_ENC_TO_IDX_REF hnn t s k Hshape Hlen)
    as [[_ Hrec] | (input_t & output & _ & _ & _ & _ & Hrec)].
  - unfold Play.timestep_body. rewrite (io_bind_raise _ _ _ _ Hrec).
    split; [reflexivity|constructor].
  - rewrite (timestep_body_unfold _ _ _ _ _ _ Hrec).
    rewrite Hrec in Hev. rewrite (playback_short k name output Hk Hshort).
    cbn [fst snd]. rewrite app_nil_r. split; [reflexivity|exact Hev].
Qed.

Lemma play_loop_short (t : nat) (s : list R) (k name : string) (rest : list string) :
  length s = n ->
  NOTE_ENC_TO_NOTE_STR_REF !! k = Some name ->
  (String.length k <= 2)%nat ->
  snd (play_loop t s (k :: rest)) = Raise IndexError
  /\ Forall is_state_event (fst (play_loop t s (k :: rest))).
Proof.
  intros Hlen Hk Hshort.
  destruct (timestep_body_short t s k name Hlen Hk Hshort) as [Hraise Hev].
  cbn [Play.play_loop]. destruct (timestep_body t s k) as [l r].
  cbn [fst snd] in *. subst r. by rewrite (io_bind_raise _ _ l IndexError eq_refl).
Qed.

End RunFacts.

(** ** Properties of the recurrence *)

Lemma sample_hnn_well_shaped : well_shaped Sample.hnn.
Proof.
  intros x Hx. cbn in Hx |- *. rewrite Hx. cbn [Nat.eqb].
  eexists. split; [reflexivity|]. rewrite length_take. lia.
Qed.

(** C2.  With a network of the expected shape and a decay constant in
    [[0, 1)], every value line 153 gives to the state has a non-zero sum,
    so line 154 never divides by zero, and every value line 154 gives to
    the state is non-negative and sums to 1.  A run that reaches the end
    of the song has updated the state once per timestep. *)
Theorem C2_state_stays_a_distribution
    (NOTE_ENC_TO_IDX_REF : gmap string Z)
    (NOTE_ENC_TO_NOTE_STR_REF : gmap string string)
    (IDX_TO_CHORD_STR_REF : gmap nat string)
    (CHORD_NOTES : gmap string (list string))
    (NOTE_FREQUENCIES : gmap string R)
    (hnn : Play.Network) (song_notes : list string) :
  well_shaped hnn ->
  (0 < Play.output_size hnn)%nat ->
  0 <= Play.state_units_decay hnn < 1 ->
  let run := Play.play_song NOTE_ENC_TO_IDX_REF NOTE_ENC_TO_NOTE_STR_REF
               IDX_TO_CHORD_STR_REF CHORD_NOTES NOTE_FREQUENCIES hnn song_notes in
  Forall state_event_ok (fst run)
  /\ (snd run = Ok tt -> count_events is_normalized (fst run) = length song_notes).
Proof.
  intros Hshape Hn [Hdecay _] run. split.
  - apply (play_loop_sat NOTE_ENC_TO_IDX_REF NOTE_ENC_TO_NOTE_STR_REF
             IDX_TO_CHORD_STR_REF CHORD_NOTES NOTE_FREQUENCIES hnn song_notes
             Hshape Hn Hdecay 0%nat). apply zeros_state_ok.
  - apply play_loop_returns; [exact Hshape|apply repeat_length].
Qed.

Lemma C2_witness :
  well_shaped Sample.hnn
  /\ (0 < Play.output_size Sample.hnn)%nat
  /\ 0 <= Play.state_units_decay Sample.hnn < 1
  /\ let run := Play.play_song Sample.NOTE_ENC_TO_IDX_REF
                  Sample.NOTE_ENC_TO_NOTE_STR_REF Sample.IDX_TO_CHORD_STR_REF
                  Sample.CHORD_NOTES Sample.NOTE_FREQUENCIES Sample.hnn
                  ["3041"; "0000"; "5040"]%string in
     Forall state_event_ok (fst run)
     /\ (snd run = Ok tt -> count_events is_normalized (fst run) = 3%nat).
Proof.
  assert (0 <= Play.state_units_decay Sample.hnn < 1) as Hdecay by (cbn; lra).
  assert (0 < Play.output_size Sample.hnn)%nat as Hn by (cbn; lia).
  split; [exact sample_hnn_well_shaped|]. split; [exact Hn|]. split; [exact Hdecay|].
  exact (C2_state_stays_a_distribution Sample.NOTE_ENC_TO_IDX_REF
           Sample.NOTE_ENC_TO_NOTE_STR_REF Sample.IDX_TO_CHORD_STR_REF
           Sample.CHORD_NOTES Sample.NOTE_FREQUENCIES Sample.hnn
           ["3041"; "0000"; "5040"]%string sample_hnn_well_shaped Hn Hdecay).
Defined.

(** ** The state update in float32 *)

Section Float32Facts.

Import SpecFloat.

(** The operations of [SpecFloat] are those of the core library; the
    arithmetic lemmas and [lia] know those of [BinInt]. *)
Ltac to_BinInt :=
  change IntDef.Z.add with BinInt.Z.add in *;
  change IntDef.Z.sub with BinInt.Z.sub in *;
  change IntDef.Z.mul with BinInt.Z.mul in *;
  change IntDef.Z.opp with BinInt.Z.opp in *;
  change IntDef.Z.max with BinInt.Z.max in *;
  change IntDef.Z.min with BinInt.Z.min in *;
  change IntDef.Z.eqb with BinInt.Z.eqb in *;
  change IntDef.Z.leb with BinInt.Z.leb in *;
  change IntDef.Z.even with BinInt.Z.even in *;
  change IntDef.Z.compare with BinInt.Z.compare in *;
  change IntDef.Z.shiftl with BinInt.Z.shiftl in *;
  change IntDef.Z.div_eucl with BinInt.Z.div_eucl in *.

Lemma f32_add_zero_r (x : F32.f32) (s : bool) :
  F32.is_weight x = true -> F32.add x (S754_zero s) = x.
Proof. destruct x as [[|]| | |[|] m e]; try discriminate; by destruct s. Qed.

Lemma f32_mul_zero_l (x : F32.f32) :
  F32.is_finite x = true -> exists s, F32.mul F32.zero x = S754_zero s.
Proof. destruct x as [s| | |s m e]; try discriminate; intros _; by eexists. Qed.

(** A finite number of the format has 24 digits, or the least exponent
    and at most 24 digits. *)
Lemma f32_bounded_cases (m : positive) (e : Z) :
  bounded F32.prec F32.emax m e = true ->
  (e <= 104)%Z
  /\ ((Zpos (digits2_pos m) = 24 /\ -149 < e)%Z
      \/ ((Zpos (digits2_pos m) <= 24)%Z /\ e = (-149)%Z)).
Proof.
  unfold bounded, canonical_mantissa, fexp, emin, F32.prec, F32.emax.
  intros H. to_BinInt. apply andb_prop in H as [H1 H2].
  apply Z.eqb_eq in H1. apply Z.leb_le in H2.
  pose proof (Pos2Z.is_pos (digits2_pos m)) as Hd.
  revert H1 Hd. generalize (Zpos (digits2_pos m)). intros d H1 Hd.
  split; [lia|].
  destruct (Z.max_spec (d + e - 24) (3 - 128 - 24)) as [[Ha Hb]|[Ha Hb]];
    rewrite Hb in H1.
  - right. lia.
  - destruct (decide (e = (-149)%Z)); [right|left]; lia.
Qed.

Lemma Z_div_eucl_mul (a b : Z) : (0 < b)%Z -> Z.div_eucl (a * b) b = (a, 0%Z).
Proof.
  intros Hb.
  pose proof (Z_div_mult a b ltac:(lia)) as Hq.
  pose proof (Z_mod_mult a b) as Hr.
  unfold Z.div, Z.modulo in Hq, Hr.
  destruct (Z.div_eucl (a * b) b) as [q r]. by rewrite Hq, Hr.
Qed.

(** Division by [1.] is exact. *)
Lemma f32_div_one (x : F32.f32) :
  F32.is_finite x = true -> F32.div x F32.one = x.
Proof.
  destruct x as [s| | |s m e]; try discriminate; [by destruct s|].
  cbn [F32.is_finite valid_binary]. intros Hb.
  destruct (f32_bounded_cases m e Hb) as [He Hcases].
  change F32.one with (S754_finite false 8388608 (-23)).
  unfold F32.div, SFdiv, SFdiv_core_binary.
  change (Zdigits2 (Zpos 8388608)) with 24%Z.
  cbn [Zdigits2]. rewrite xorb_false_r.
  unfold binary_round_aux, shr_fexp, fexp, emin, F32.prec, F32.emax. to_BinInt.
  change (new_location 8388608) with (new_location_even 8388608).
  destruct Hcases as [[Hd Hlo] | [Hd ->]].
  - rewrite Hd.
    replace (Z.min (Z.max (24 + e - (24 + -23) - 24) (3 - 128 - 24)) (e - -23))
      with (e - 1)%Z by lia.
    replace (e - -23 - (e - 1))%Z with 24%Z by lia.
    rewrite Z.shiftl_mul_pow2 by lia.
    replace (Zpos m * 2 ^ 24)%Z with (Zpos (m~0) * 8388608)%Z by lia.
    rewrite (Z_div_eucl_mul (Zpos m~0) 8388608) by lia.
    change (new_location_even 8388608 0) with loc_Exact.
    cbn [Zdigits2 digits2_pos].
    rewrite Pos2Z.inj_succ, Hd.
    replace (Z.max (Z.succ 24 + (e - 1) - 24) (3 - 128 - 24) - (e - 1))%Z with 1%Z by lia.
    cbn [shr shr_record_of_loc iter_pos shr_1 orb shr_m loc_of_shr_record
         round_nearest_even Zdigits2].
    rewrite Hd.
    replace (Z.max (24 + (e - 1 + 1) - 24) (3 - 128 - 24) - (e - 1 + 1))%Z with 0%Z by lia.
    cbn [shr shr_record_of_loc shr_m].
    replace (e - 1 + 1)%Z with e by lia.
    replace (e <=? 128 - 24)%Z with true by (symmetry; apply Z.leb_le; lia).
    reflexivity.
  - replace (Z.min (Z.max (Z.pos (digits2_pos m) + -149 - (24 + -23) - 24) (3 - 128 - 24)) (-149 - -23))
      with (-149)%Z by lia.
    change (-149 - -23 - -149)%Z with 23%Z.
    rewrite Z.shiftl_mul_pow2 by lia.
    change (2 ^ 23)%Z with 8388608%Z.
    rewrite (Z_div_eucl_mul (Zpos m) 8388608) by lia.
    change (new_location_even 8388608 0) with loc_Exact.
    cbn [Zdigits2].
    replace (Z.max (Z.pos (digits2_pos m) + -149 - 24) (3 - 128 - 24) - -149)%Z with 0%Z by lia.
    cbn [shr shr_record_of_loc shr_m round_nearest_even loc_of_shr_record Zdigits2].
    replace (Z.max (Z.pos (digits2_pos m) + -149 - 24) (3 - 128 - 24) - -149)%Z with 0%Z by lia.
    cbn [shr shr_record_of_loc shr_m].
    reflexivity.
Qed.

End Float32Facts.

Section Update32Facts.

Import SpecFloat.

Variable F_softmax : list F32.f32 -> list F32.f32.
Variable torch_sum : list F32.f32 -> F32.f32.

(** With a decay constant of [0.] the decayed state is a row of zeros and
    line 153 leaves the softmax as it is. *)
Lemma blend32_zero_decay (p state_units : list F32.f32) :
  length p = length state_units ->
  Forall (fun x => F32.is_weight x = true) p ->
  Forall (fun x => F32.is_finite x = true) state_units ->
  F32.add_rows p (F32.scale F32.zero state_units) = Ok p.
Proof.
  intros Hlen Hp Hs. unfold F32.add_rows, F32.scale.
  rewrite length_map, Hlen, Nat.eqb_refl. f_equal.
  revert state_units Hlen Hs.
  induction Hp as [|a p Ha Hp IH]; intros [|b s] Hlen Hs; try discriminate;
    [reflexivity|].
  injection Hlen as Hlen. apply Forall_cons in Hs as [Hb Hs]. cbn [map combine fst snd].
  destruct (f32_mul_zero_l b Hb) as [sg ->].
  rewrite (f32_add_zero_r a sg Ha). f_equal. by apply IH.
Qed.

Lemma div_scalar_one (p : list F32.f32) :
  Forall (fun x => F32.is_weight x = true) p ->
  F32.div_scalar p F32.one = p.
Proof.
  intros Hp. unfold F32.div_scalar. induction Hp as [|a p Ha Hp IH]; [reflexivity|].
  cbn [map]. rewrite IH. f_equal. apply f32_div_one.
  destruct a as [[|]| | |[|] m e]; try discriminate; [reflexivity|exact Ha].
Qed.

Lemma update32_zero_decay (output state_units : list F32.f32) :
  length (F_softmax output) = length state_units ->
  Forall (fun x => F32.is_weight x = true) (F_softmax output) ->
  Forall (fun x => F32.is_finite x = true) state_units ->
  Play32.update_state F_softmax torch_sum F32.zero output state_units
  = Ok (F32.div_scalar (F_softmax output) (torch_sum (F_softmax output))).
Proof.
  intros Hlen Hp Hs. unfold Play32.update_state, Play32.blend.
  by rewrite (blend32_zero_decay _ _ Hlen Hp Hs).
Qed.

End Update32Facts.

(** In exact arithmetic, with a decay constant of 0, lines 153-154 replace
    a state of the width of the logits by the softmax of the logits. *)
Lemma update_state_zero_decay (output state_units : list R) :
  length output = length state_units ->
  Play.update_state 0 output state_units = Ok (softmax output).
Proof.
  intros Hlen. unfold Play.update_state.
  rewrite (blend_ok 0 output state_units Hlen).
  rewrite zip_plus_scale0 by (by rewrite softmax_length).
  cbn [mbind result_bind mret result_ret]. f_equal.
  destruct (decide (output = [])) as [->|Hne]; [reflexivity|].
  apply renormalize_distribution. by apply softmax_sum.
Qed.




(** C5, as the loop behaves.  The input of the network is the state,
    followed at once by the 12 melody units and the 2 meter units: its
    width is the width of the state plus 14, and nothing is padded. *)
Theorem C5_input_is_state_melody_meter
    (NOTE_ENC_TO_IDX_REF : gmap string Z)
    (timestep : nat) (state_units : list R) (note : string) :
  indices_in_range NOTE_ENC_TO_IDX_REF ->
  exists input_t,
    Play.inputs NOTE_ENC_TO_IDX_REF timestep state_units note
    = Ok (state_units ++ input_t ++ Play.meter_units timestep)
    /\ length input_t = 12%nat
    /\ length (Play.meter_units timestep) = 2%nat
    /\ length (state_units ++ input_t ++ Play.meter_units timestep)
       = (length state_units + 14)%nat.
Proof.
  intros Hrange. unfold Play.inputs.
  destruct (melody_input_ok NOTE_ENC_TO_IDX_REF note Hrange) as (v & Hv & Hv12).
  exists v. rewrite Hv. split; [reflexivity|]. split; [exact Hv12|].
  split; [apply meter_units_length|].
  rewrite !length_app, Hv12, meter_units_length. lia.
Qed.

Lemma sample_indices_in_range : indices_in_range Sample.NOTE_ENC_TO_IDX_REF.
Proof.
  assert (map_Forall (fun (_ : string) (i : Z) => (-12 <= i < 12)%Z)
            Sample.NOTE_ENC_TO_IDX_REF) as Hall.
  { apply (bool_decide_unpack _). vm_compute. exact I. }
  intros k i Hk. exact (Hall k i Hk).
Qed.

Lemma C5_witness :
  indices_in_range Sample.NOTE_ENC_TO_IDX_REF
  /\ exists input_t,
       Play.inputs Sample.NOTE_ENC_TO_IDX_REF 1 (zeros 84) "3041"
       = Ok (zeros 84 ++ input_t ++ Play.meter_units 1)
       /\ length input_t = 12%nat
       /\ length (Play.meter_units 1) = 2%nat
       /\ length (zeros 84 ++ input_t ++ Play.meter_units 1)
          = (length (zeros 84) + 14)%nat.
Proof.
  split; [exact sample_indices_in_range|].
  exact (C5_input_is_state_melody_meter Sample.NOTE_ENC_TO_IDX_REF 1 (zeros 84)
           "3041" sample_indices_in_range).
Defined.

Lemma MelodyNet_init_fields
    (T : gmap string (list string)) (rng : nat -> nat -> nat -> R)
    (hidden1_size : nat) (lr weight_decay cw mw decay : R) (name : string)
    (net : Mnet.MelodyNet) :
  Mnet.MelodyNet_init T rng hidden1_size lr weight_decay cw mw decay name = Ok net ->
  Mnet.output_size net = 145%nat
  /\ Mnet.in_features (Mnet.hidden1 net) = 245%nat.
Proof.
  unfold Mnet.MelodyNet_init, Mnet.fixed_output_weights. cbv zeta.
  destruct (Mnet.chords_to_notes T 145 84) as [M|e]; [|discriminate].
  cbn [mbind result_bind mret result_ret]. intros [= <-]. split; reflexivity.
Qed.

Lemma linear_wrong_width (L : Mnet.Linear) (x : list R) :
  length x <> Mnet.in_features L -> Mnet.linear L x = Raise RuntimeError.
Proof.
  intros Hne. apply Nat.eqb_neq in Hne. unfold Mnet.linear. by rewrite Hne.
Qed.

(** A [MelodyNet] rejects an input that is not as wide as its first layer. *)
Lemma forward_wrong_width (net : Mnet.MelodyNet) (x : list R) :
  length x <> Mnet.in_features (Mnet.hidden1 net) ->
  Play.call (Play.of_MelodyNet net) x = Raise RuntimeError.
Proof.
  intros Hne.
  cbn [Play.call Play.of_MelodyNet]. unfold Mnet.forward. cbn [mapM].
  unfold Mnet.forward_row. by rewrite (linear_wrong_width _ x Hne).
Qed.

(** C5 as stated fails: on the network [MelodyNet] builds, with its 145
    state units, the input of timestep 0 for the symbol [3041] is the 145
    state units, the 12 melody units and the 2 meter units.  It is 159
    wide, not 245, it holds no padding, and the network rejects it. *)
Lemma C5_counterexample :
  exists net x,
    Mnet.MelodyNet_init Sample.CHORD_NOTES Sample.rng 64 (1/100) 0 1 10 (1/2)
      "hnn" = Ok net
    /\ Play.inputs Sample.NOTE_ENC_TO_IDX_REF 0
         (zeros (Play.output_size (Play.of_MelodyNet net))) "3041" = Ok x
    /\ x = zeros 145 ++ eye_row 12 3 ++ [1; 0]
    /\ length x = 159%nat
    /\ length x <> 245%nat
    /\ Play.call (Play.of_MelodyNet net) x = Raise RuntimeError.
Proof.
  assert (Mnet.table_complete Sample.CHORD_NOTES) as Hall.
  { apply (bool_decide_unpack _). vm_compute. exact I. }
  destruct (MelodyNet_init_ok Sample.CHORD_NOTES Sample.rng 64 (1/100) 0 1 10 (1/2)
              "hnn" Hall) as (net & Hnet & _).
  destruct (MelodyNet_init_fields _ _ _ _ _ _ _ _ _ _ Hnet) as [Hout Hin].
  assert (Sample.NOTE_ENC_TO_IDX_REF !! slice_to 2 "3041" = Some 3%Z) as Hidx.
  { vm_compute. reflexivity. }
  assert (length (zeros 145 ++ eye_row 12 3 ++ [1; 0]) = 159%nat) as Hlen.
  { rewrite !length_app, eye_row_length. unfold zeros. rewrite repeat_length.
    reflexivity. }
  exists net, (zeros 145 ++ eye_row 12 3 ++ [1; 0]).
  split; [exact Hnet|]. split.
  { cbn [Play.output_size Play.of_MelodyNet]. rewrite Hout.
    unfold Play.inputs, Play.melody_input. rewrite Hidx. reflexivity. }
  split; [reflexivity|]. split; [exact Hlen|]. split; [rewrite Hlen; lia|].
  apply forward_wrong_width. rewrite Hlen, Hin. lia.
Qed.

(** C7, where the loop falls short of it.  A symbol of at most two
    characters that is a key of the note-name table (a pitch code with no
    octave behind it) is not tolerated: line 158 reads its third character
    and the run ends with an IndexError, whatever follows in the song. *)
Theorem C7_short_symbol_raises_IndexError
    (NOTE_ENC_TO_IDX_REF : gmap string Z)
    (NOTE_ENC_TO_NOTE_STR_REF : gmap string string)
    (IDX_TO_CHORD_STR_REF : gmap nat string)
    (CHORD_NOTES : gmap string (list string))
    (NOTE_FREQUENCIES : gmap string R)
    (hnn : Play.Network) (k name : string) (rest : list string) :
  well_shaped hnn ->
  NOTE_ENC_TO_NOTE_STR_REF !! k = Some name ->
  (String.length k <= 2)%nat ->
  snd (Play.play_song NOTE_ENC_TO_IDX_REF NOTE_ENC_TO_NOTE_STR_REF
         IDX_TO_CHORD_STR_REF CHORD_NOTES NOTE_FREQUENCIES hnn (k :: rest))
  = Raise IndexError.
Proof.
  intros Hshape Hk Hshort. unfold Play.play_song.
  eapply play_loop_short; [exact Hshape|apply repeat_length|exact Hk|exact Hshort].
Qed.

Lemma C7_witness :
  well_shaped Sample.hnn
  /\ Sample.NOTE_ENC_TO_NOTE_STR_REF !! "31"%string = Some "C#"%string
  /\ (String.length "31" <= 2)%nat
  /\ snd (Play.play_song Sample.NOTE_ENC_TO_IDX_REF Sample.NOTE_ENC_TO_NOTE_STR_REF
            Sample.IDX_TO_CHORD_STR_REF Sample.CHORD_NOTES Sample.NOTE_FREQUENCIES
            Sample.hnn ["31"; "3041"]%string)
     = Raise IndexError.
Proof.
  assert (Sample.NOTE_ENC_TO_NOTE_STR_REF !! "31"%string = Some "C#"%string) as Hk.
  { vm_compute. reflexivity. }
  assert (String.length "31" <= 2)%nat as Hshort by (cbn; lia).
  split; [exact sample_hnn_well_shaped|]. split; [exact Hk|]. split; [exact Hshort|].
  exact (C7_short_symbol_raises_IndexError Sample.NOTE_ENC_TO_IDX_REF
           Sample.NOTE_ENC_TO_NOTE_STR_REF Sample.IDX_TO_CHORD_STR_REF
           Sample.CHORD_NOTES Sample.NOTE_FREQUENCIES Sample.hnn "31" "C#"
           ["3041"%string] sample_hnn_well_shaped Hk Hshort).
Defined.

(** C8, where the loop falls short of it.  For a song of one timestep
    whose symbol is such a short key of the note-name table, the run ends
    with the IndexError of line 158 before line 166: no chord label is
    printed or played for the timestep. *)
Theorem C8_short_symbol_gets_no_chord
    (NOTE_ENC_TO_IDX_REF : gmap string Z)
    (NOTE_ENC_TO_NOTE_STR_REF : gmap string string)
    (IDX_TO_CHORD_STR_REF : gmap nat string)
    (CHORD_NOTES : gmap string (list string))
    (NOTE_FREQUENCIES : gmap string R)
    (hnn : Play.Network) (k name : string) :
  well_shaped hnn ->
  NOTE_ENC_TO_NOTE_STR_REF !! k = Some name ->
  (String.length k <= 2)%nat ->
  let run := Play.play_song NOTE_ENC_TO_IDX_REF NOTE_ENC_TO_NOTE_STR_REF
               IDX_TO_CHORD_STR_REF CHORD_NOTES NOTE_FREQUENCIES hnn [k] in
  length [k] = 1%nat
  /\ snd run = Raise IndexError
  /\ count_events is_printed (fst run) = 0%nat.
Proof.
  intros Hshape Hk Hshort run. split; [reflexivity|].
  destruct (play_loop_short NOTE_ENC_TO_IDX_REF NOTE_ENC_TO_NOTE_STR_REF
              IDX_TO_CHORD_STR_REF CHORD_NOTES NOTE_FREQUENCIES hnn Hshape 0%nat
              (zeros (Play.output_size hnn)) k name [] (repeat_length _ _) Hk Hshort)
    as [Hraise Hev].
  split; [exact Hraise|]. by apply count_printed_state.
Qed.

Lemma C8_witness :
  well_shaped Sample.hnn
  /\ Sample.NOTE_ENC_TO_NOTE_STR_REF !! "31"%string = Some "C#"%string
  /\ (String.length "31" <= 2)%nat
  /\ let run := Play.play_song Sample.NOTE_ENC_TO_IDX_REF
                  Sample.NOTE_ENC_TO_NOTE_STR_REF Sample.IDX_TO_CHORD_STR_REF
                  Sample.CHORD_NOTES Sample.NOTE_FREQUENCIES Sample.hnn
                  ["31"%string] in
     length ["31"%string] = 1%nat
     /\ snd run = Raise IndexError
     /\ count_events is_printed (fst run) = 0%nat.
Proof.
  assert (Sample.NOTE_ENC_TO_NOTE_STR_REF !! "31"%string = Some "C#"%string) as Hk.
  { vm_compute. reflexivity. }
  assert (String.length "31" <= 2)%nat as Hshort by (cbn; lia).
  split; [exact sample_hnn_well_shaped|]. split; [exact Hk|]. split; [exact Hshort|].
  exact (C8_short_symbol_gets_no_chord Sample.NOTE_ENC_TO_IDX_REF
           Sample.NOTE_ENC_TO_NOTE_STR_REF Sample.IDX_TO_CHORD_STR_REF
           Sample.CHORD_NOTES Sample.NOTE_FREQUENCIES Sample.hnn "31" "C#"
           sample_hnn_well_shaped Hk Hshort).
Defined.

(** ** Songs the playback lines accept *)

Lemma argmax_from_lt (x : list R) :
  forall (best : R) (best_idx idx : nat),
    (best_idx < idx)%nat ->
    (argmax_from best best_idx idx x < idx + length x)%nat.
Proof.
  induction x as [|a x IH]; intros best best_idx idx Hlt; cbn [argmax_from length].
  - lia.
  - destruct (Rlt_dec best a).
    + specialize (IH a idx (S idx)). lia.
    + specialize (IH best best_idx (S idx)). lia.
Qed.

Lemma argmax_in_range (x : list R) :
  x <> [] -> exists i, argmax x = Ok i /\ (i < length x)%nat.
Proof.
  destruct x as [|a x]; [congruence|]. intros _. eexists. split; [reflexivity|].
  pose proof (argmax_from_lt x a 0%nat 1%nat). cbn [length]. lia.
Qed.

Section PlayableFacts.

Variable NOTE_ENC_TO_IDX_REF : gmap string Z.
Variable NOTE_ENC_TO_NOTE_STR_REF : gmap string string.
Variable IDX_TO_CHORD_STR_REF : gmap nat string.
Variable CHORD_NOTES : gmap string (list string).
Variable NOTE_FREQUENCIES : gmap string R.
Variable hnn : Play.Network.

Local Abbreviation recurrence := (Play.recurrence NOTE_ENC_TO_IDX_REF hnn).
Local Abbreviation playback :=
  (Play.playback NOTE_ENC_TO_NOTE_STR_REF IDX_TO_CHORD_STR_REF CHORD_NOTES
     NOTE_FREQUENCIES).
Local Abbreviation timestep_body :=
  (Play.timestep_body NOTE_ENC_TO_IDX_REF NOTE_ENC_TO_NOTE_STR_REF
     IDX_TO_CHORD_STR_REF CHORD_NOTES NOTE_FREQUENCIES hnn).
Local Abbreviation play_loop :=
  (Play.play_loop NOTE_ENC_TO_IDX_REF NOTE_ENC_TO_NOTE_STR_REF
     IDX_TO_CHORD_STR_REF CHORD_NOTES NOTE_FREQUENCIES hnn).
Local Abbreviation n := (Play.output_size hnn).

Hypothesis Hshape : well_shaped hnn.
Hypothesis Hn : (0 < n)%nat.
Hypothesis Hrange : indices_in_range NOTE_ENC_TO_IDX_REF.
Hypothesis Hcover : chords_cover IDX_TO_CHORD_STR_REF CHORD_NOTES NOTE_FREQUENCIES n.

Lemma note_freqs_ok (chord_notes : list string) :
  Forall (fun note => is_Some (NOTE_FREQUENCIES !! note)) chord_notes ->
  exists fs, Play.note_freqs NOTE_FREQUENCIES chord_notes = Ok fs.
Proof.
  induction 1 as [|note rest [f Hf] _ [fs IH]]; cbn [Play.note_freqs].
  - by eexists.
  - unfold getitem. rewrite Hf, IH. by eexists.
Qed.

Lemma play_chord_ok (chord : string) :
  chord_playable CHORD_NOTES NOTE_FREQUENCIES chord ->
  Play.play_chord CHORD_NOTES NOTE_FREQUENCIES (Some chord)
  = ([Play.ChordSound chord], Ok tt).
Proof.
  intros (chord_notes & Hc & Hall). destruct (note_freqs_ok chord_notes Hall) as [fs Hfs].
  unfold Play.play_chord, getitem. by rewrite Hc; cbn; rewrite Hfs.
Qed.

Lemma play_comp_ok (note_str : option string) (chord : string) :
  chord_playable CHORD_NOTES NOTE_FREQUENCIES chord ->
  (forall nt, note_str = Some nt -> is_Some (NOTE_FREQUENCIES !! nt)) ->
  Play.play_comp CHORD_NOTES NOTE_FREQUENCIES [note_str] (Some chord)
  = (Play.ChordSound chord ::
       match note_str with
       | Some nt => [Play.NoteSound nt]
       | None => []
       end, Ok tt).
Proof.
  intros Hchord Hnote. unfold Play.play_comp. rewrite (play_chord_ok chord Hchord).
  destruct note_str as [nt|]; [|reflexivity].
  destruct (Hnote nt eq_refl) as [f Hf].
  cbn. unfold getitem. by rewrite Hf.
Qed.

Lemma note_string_ok (note : string) :
  symbol_ok NOTE_ENC_TO_NOTE_STR_REF NOTE_FREQUENCIES note ->
  exists note_str,
    Play.note_string NOTE_ENC_TO_NOTE_STR_REF note = Ok note_str
    /\ forall nt, note_str = Some nt -> is_Some (NOTE_FREQUENCIES !! nt).
Proof.
  unfold symbol_ok, Play.note_string, char_at.
  destruct (NOTE_ENC_TO_NOTE_STR_REF !! slice_to 2 note) as [name|].
  - intros (c & -> & Hf). eexists. split; [reflexivity|]. by intros nt [= <-].
  - intros _. exists None. split; [reflexivity|]. intros nt [=].
Qed.

(** Lines 156-167 on a symbol they accept: one line is printed, with the
    label the chord index table gives for the argmax of the logits, and
    the chord is played. *)
Lemma playback_ok (note : string) (output : list R) :
  length output = n ->
  symbol_ok NOTE_ENC_TO_NOTE_STR_REF NOTE_FREQUENCIES note ->
  exists (i : nat) (chord : string) (note_str : option string),
    argmax output = Ok i
    /\ IDX_TO_CHORD_STR_REF !! i = Some chord
    /\ playback note output
       = (Play.Printed note_str (Some chord) :: Play.ChordSound chord ::
            match note_str with
            | Some nt => [Play.NoteSound nt]
            | None => []
            end, Ok tt).
Proof.
  intros Hlen Hsym.
  destruct (note_string_ok note Hsym) as (note_str & Hstr & Hfreq).
  destruct (argmax_in_range output) as (i & Hi & Hlt).
  { destruct output; [cbn in Hlen; lia|discriminate]. }
  destruct (Hcover i) as (chord & Hchord & Hplay); [lia|].
  exists i, chord, note_str. split; [exact Hi|]. split; [exact Hchord|].
  unfold Play.playback. rewrite Hstr, Hi. cbn [Play.lift mbind Play.io_bind].
  rewrite Hchord, (play_comp_ok note_str chord Hplay Hfreq). reflexivity.
Qed.

Lemma recurrence_ok (t : nat) (s : list R) (note : string) :
  length s = n ->
  exists l x output s',
    recurrence t s note = (l, Ok (output, s'))
    /\ Forall is_state_event l
    /\ Play.inputs NOTE_ENC_TO_IDX_REF t s note = Ok x
    /\ Play.call hnn x = Ok output
    /\ length output = n
    /\ length s' = n.
Proof.
  intros Hlen.
  pose proof (recurrence_state_events NOTE_ENC_TO_IDX_REF hnn t s note Hshape Hlen) as Hev.
  destruct (recurrence_cases NOTE_ENC_TO_IDX_REF hnn t s note Hshape Hlen)
    as [[Hraise _] | (input_t & output & Hin & _ & Hcall & Hout & Hrec)].
  - destruct (melody_input_ok NOTE_ENC_TO_IDX_REF note Hrange) as (v & Hv & _).
    congruence.
  - rewrite Hrec in Hev.
    eexists _, (s ++ input_t ++ Play.meter_units t), output, _.
    split; [exact Hrec|]. split; [exact Hev|].
    split; [unfold Play.inputs; by rewrite Hin|].
    split; [exact Hcall|]. split; [exact Hout|].
    unfold Play.renormalize, div_scalar.
    rewrite !length_map, length_combine, softmax_length, scale_length. lia.
Qed.

Lemma chords_printed_app (l l' : list Play.event) :
  chords_printed (l ++ l') = chords_printed l ++ chords_printed l'.
Proof. unfold chords_printed. by rewrite List.filter_app, map_app. Qed.

Lemma chords_printed_state (l : list Play.event) :
  Forall is_state_event l -> chords_printed l = [].
Proof.
  induction 1 as [|e l He _ IH]; [reflexivity|].
  unfold chords_printed in *. cbn. destruct e; cbn in *; try done.
Qed.

(** One iteration on a symbol the playback lines accept: it returns a
    state of the same width and prints exactly one chord label. *)
Lemma timestep_body_ok (t : nat) (s : list R) (note : string) :
  length s = n ->
  symbol_ok NOTE_ENC_TO_NOTE_STR_REF NOTE_FREQUENCIES note ->
  exists l s' x output i chord,
    timestep_body t s note = (l, Ok s')
    /\ length s' = n
    /\ Play.inputs NOTE_ENC_TO_IDX_REF t s note = Ok x
    /\ Play.call hnn x = Ok output
    /\ argmax output = Ok i
    /\ IDX_TO_CHORD_STR_REF !! i = Some chord
    /\ chords_printed l = [Some chord].
Proof.
  intros Hlen Hsym.
  destruct (recurrence_ok t s note Hlen)
    as (l & x & output & s' & Hrec & Hev & Hx & Hcall & Hout & Hlen').
  destruct (playback_ok note output Hout Hsym)
    as (i & chord & note_str & Hi & Hchord & Hplay).
  eexists _, s', x, output, i, chord.
  rewrite (timestep_body_unfold _ _ _ _ _ _ _ _ _ _ _ _ Hrec), Hplay. cbn [fst snd].
  split; [reflexivity|]. split; [exact Hlen'|]. split; [exact Hx|].
  split; [exact Hcall|]. split; [exact Hi|]. split; [exact Hchord|].
  rewrite chords_printed_app, (chords_printed_state l Hev).
  unfold chords_printed. cbn. by destruct note_str.
Qed.

(** A song of such symbols is played to its end, and one chord label is
    printed per timestep; none is missing. *)
Lemma play_loop_ok (song : list string) :
  Forall (symbol_ok NOTE_ENC_TO_NOTE_STR_REF NOTE_FREQUENCIES) song ->
  forall (t : nat) (s : list R),
    length s = n ->
    exists chords : list string,
      snd (play_loop t s song) = Ok tt
      /\ chords_printed (fst (play_loop t s song)) = map Some chords
      /\ length chords = length song.
Proof.
  induction 1 as [|note song Hsym _ IH]; intros t s Hlen.
  - by exists [].
  - destruct (timestep_body_ok t s note Hlen Hsym)
      as (l & s' & x & output & i & chord & Hbody & Hlen' & _ & _ & _ & _ & Hprinted).
    destruct (IH (S t) s' Hlen') as (chords & Hok & Hchords & Hcount).
    exists (chord :: chords). cbn [Play.play_loop].
    rewrite (io_bind_ok _ _ l s' Hbody). cbn [fst snd].
    split; [exact Hok|]. rewrite chords_printed_app, Hprinted, Hchords.
    split; [reflexivity|]. cbn [length]. by rewrite Hcount.
Qed.

End PlayableFacts.

(** With tables that fit the network, a song whose symbols the playback
    lines accept (in particular a song of unrecognised symbols only) is
    played to its end with one chord label per timestep. *)
Lemma play_song_ok
    (NOTE_ENC_TO_IDX_REF : gmap string Z)
    (NOTE_ENC_TO_NOTE_STR_REF : gmap string string)
    (IDX_TO_CHORD_STR_REF : gmap nat string)
    (CHORD_NOTES : gmap string (list string))
    (NOTE_FREQUENCIES : gmap string R)
    (hnn : Play.Network) (song_notes : list string) :
  well_shaped hnn ->
  (0 < Play.output_size hnn)%nat ->
  indices_in_range NOTE_ENC_TO_IDX_REF ->
  chords_cover IDX_TO_CHORD_STR_REF CHORD_NOTES NOTE_FREQUENCIES (Play.output_size hnn) ->
  Forall (symbol_ok NOTE_ENC_TO_NOTE_STR_REF NOTE_FREQUENCIES) song_notes ->
  let run := Play.play_song NOTE_ENC_TO_IDX_REF NOTE_ENC_TO_NOTE_STR_REF
               IDX_TO_CHORD_STR_REF CHORD_NOTES NOTE_FREQUENCIES hnn song_notes in
  exists chords : list string,
    snd run = Ok tt
    /\ chords_printed (fst run) = map Some chords
    /\ length chords = length song_notes.
Proof.
  intros Hshape Hn Hrange Hcover Hsong run.
  apply (play_loop_ok NOTE_ENC_TO_IDX_REF NOTE_ENC_TO_NOTE_STR_REF
           IDX_TO_CHORD_STR_REF CHORD_NOTES NOTE_FREQUENCIES hnn
           Hshape Hn Hrange Hcover song_notes Hsong).
  apply repeat_length.
Qed.

Lemma sample_chords_cover :
  chords_cover Sample.IDX_TO_CHORD_STR_REF Sample.CHORD_NOTES
    Sample.NOTE_FREQUENCIES 84.
Proof.
  assert (forallb (fun i =>
            match Sample.IDX_TO_CHORD_STR_REF !! i with
            | Some chord =>
                match Sample.CHORD_NOTES !! chord with
                | Some chord_notes =>
                    forallb (fun note =>
                      bool_decide (is_Some (Sample.NOTE_FREQUENCIES !! note)))
                      chord_notes
                | None => false
                end
            | None => false
            end) (seq 0 84) = true) as Hall.
  { vm_compute. reflexivity. }
  rewrite forallb_forall in Hall. intros i Hi.
  specialize (Hall i). rewrite in_seq in Hall. specialize (Hall ltac:(lia)).
  destruct (Sample.IDX_TO_CHORD_STR_REF !! i) as [chord|]; [|discriminate].
  exists chord. split; [reflexivity|].
  destruct (Sample.CHORD_NOTES !! chord) as [chord_notes|] eqn:Hc; [|discriminate].
  exists chord_notes. split; [exact Hc|].
  rewrite forallb_forall in Hall. apply Forall_forall. intros note Hnote.
  apply list_elem_of_In in Hnote. exact (bool_decide_eq_true_1 _ (Hall note Hnote)).
Qed.

(** The rest symbol [0000] three times over: every symbol is unrecognised,
    the run ends without exception, and three chord labels are printed. *)
Example sample_rests_are_played :
  let run := Play.play_song Sample.NOTE_ENC_TO_IDX_REF
               Sample.NOTE_ENC_TO_NOTE_STR_REF Sample.IDX_TO_CHORD_STR_REF
               Sample.CHORD_NOTES Sample.NOTE_FREQUENCIES Sample.hnn
               ["0000"; "0000"; "0000"]%string in
  exists chords : list string,
    snd run = Ok tt
    /\ chords_printed (fst run) = map Some chords
    /\ length chords = 3%nat.
Proof.
  apply play_song_ok.
  - exact sample_hnn_well_shaped.
  - cbn. lia.
  - exact sample_indices_in_range.
  - exact sample_chords_cover.
  - assert (Sample.NOTE_ENC_TO_NOTE_STR_REF !! slice_to 2 "0000" = None) as Hrest.
    { vm_compute. reflexivity. }
    repeat constructor; unfold symbol_ok; by rewrite Hrest.
Qed.

(** * Further properties of [models/mnet.py] *)

(** ** The membership test *)

Lemma drop_last_snoc (s : string) (c : ascii) :
  drop_last (String.append s (String c EmptyString)) = s.
Proof.
  induction s as [|a s IH]; [reflexivity|].
  destruct s as [|b s]; [reflexivity|].
  change (drop_last (String.append (String a (String b s)) (String c EmptyString)))
    with (String a (drop_last (String.append (String b s) (String c EmptyString)))).
  by rewrite IH.
Qed.

Lemma drop_last_inv (note chord_note : string) :
  note <> EmptyString ->
  drop_last chord_note = note ->
  exists c, chord_note = String.append note (String c EmptyString).
Proof.
  revert note. induction chord_note as [|a s IH]; intros note Hne Hdrop.
  - cbn in Hdrop. congruence.
  - destruct s as [|b s].
    + cbn in Hdrop. congruence.
    + change (drop_last (String a (String b s)))
        with (String a (drop_last (String b s))) in Hdrop.
      destruct note as [|a' note]; [congruence|]. injection Hdrop as <- Hdrop.
      destruct note as [|b' note].
      * destruct s as [|c s]; [|discriminate Hdrop]. exists b. reflexivity.
      * destruct (IH (String b' note) ltac:(discriminate) Hdrop) as [c Hc].
        exists c. cbn [String.append]. by rewrite Hc.
Qed.

(** The membership test of line 147 ignores the last character of a chord
    note (its octave): a non-empty note is found in a chord exactly when
    the note followed by one more character is one of the chord's notes. *)
Theorem note_in_chord_ignores_octave (note : string) (chord_notes : list string) :
  note <> EmptyString ->
  Mnet.note_in_chord note chord_notes = true
  <-> exists c, String.append note (String c EmptyString) ∈ chord_notes.
Proof.
  intros Hne. unfold Mnet.note_in_chord. rewrite existsb_exists. split.
  - intros (chord_note & Hin & Heq). apply String.eqb_eq in Heq.
    destruct (drop_last_inv note chord_note Hne (eq_sym Heq)) as [c ->].
    exists c. by apply list_elem_of_In.
  - intros [c Hin]. eexists. split; [apply list_elem_of_In, Hin|].
    apply String.eqb_eq. by rewrite drop_last_snoc.
Qed.

Lemma note_in_chord_ignores_octave_witness :
  "C#"%string <> EmptyString
  /\ (Mnet.note_in_chord "C#" ["A3"; "C#4"; "E4"]%string = true
      <-> exists c, String.append "C#" (String c EmptyString)
                    ∈ ["A3"; "C#4"; "E4"]%string).
Proof.
  split; [discriminate|].
  apply (note_in_chord_ignores_octave "C#" ["A3"; "C#4"; "E4"]%string). discriminate.
Defined.

(** ** The entries of the two fixed matrices *)

Lemma lookup_repeat_lt {A} (x : A) (n i : nat) :
  (i < n)%nat -> repeat x n !! i = Some x.
Proof.
  revert i. induction n as [|n IH]; intros [|i] Hi; try lia; [reflexivity|].
  cbn. apply IH. lia.
Qed.

Lemma membership_matrix_entry (T : gmap string (list string))
    (i j : nat) (note chord : string) :
  tail Mnet.output_notes !! i = Some note ->
  Mnet.hidden2_chords !! j = Some chord ->
  entry (membership_matrix T) (S i) j = Some (member T note chord).
Proof.
  intros Hnote Hchord.
  assert (membership_matrix T !! S i = Some (membership_row T note)) as Hrow.
  { unfold membership_matrix. rewrite lookup_cons_ne_0 by lia. cbn [pred]. to_fmap.
    by rewrite list_lookup_fmap, Hnote. }
  assert (membership_row T note !! j = Some (member T note chord)) as Hentry.
  { unfold membership_row. to_fmap. by rewrite list_lookup_fmap, Hchord. }
  unfold entry. rewrite Hrow. exact Hentry.
Qed.

(** Lines 136-148.  With a complete chord table the loops return the 0/1
    matrix of the membership test: row 0 (rest) is 1 for each of the 84
    chords, and the entry of a later row and a chord is 1 exactly when the
    chord's table entry holds the row's note under the test of line 147. *)
Theorem chords_to_notes_entries (T : gmap string (list string)) :
  Mnet.table_complete T ->
  exists M,
    Mnet.chords_to_notes T 145 84 = Ok M
    /\ (forall j, (j < 84)%nat -> entry M 0 j = Some 1)
    /\ (forall i j note chord chord_notes,
          Mnet.output_notes !! S i = Some note ->
          Mnet.hidden2_chords !! j = Some chord ->
          T !! chord = Some chord_notes ->
          entry M (S i) j
          = Some (if Mnet.note_in_chord note chord_notes then 1 else 0)).
Proof.
  intros Hall. exists (membership_matrix T).
  split; [by apply chords_to_notes_ok|]. split.
  - intros j Hj. change (ones 84 !! j = Some 1). by apply lookup_repeat_lt.
  - intros i j note chord chord_notes Hnote Hchord Hc.
    rewrite (membership_matrix_entry T i j note chord); [|exact Hnote|exact Hchord].
    by rewrite (member_lookup T note chord chord_notes Hc).
Qed.

Lemma chords_to_notes_entries_witness :
  Mnet.table_complete Sample.CHORD_NOTES
  /\ exists M,
       Mnet.chords_to_notes Sample.CHORD_NOTES 145 84 = Ok M
       /\ (forall j, (j < 84)%nat -> entry M 0 j = Some 1)
       /\ (forall i j note chord chord_notes,
             Mnet.output_notes !! S i = Some note ->
             Mnet.hidden2_chords !! j = Some chord ->
             Sample.CHORD_NOTES !! chord = Some chord_notes ->
             entry M (S i) j
             = Some (if Mnet.note_in_chord note chord_notes then 1 else 0)).
Proof.
  assert (Mnet.table_complete Sample.CHORD_NOTES) as Hall.
  { apply (bool_decide_unpack _). vm_compute. exact I. }
  split; [exact Hall|]. exact (chords_to_notes_entries Sample.CHORD_NOTES Hall).
Defined.

Lemma chords_to_notes_inv (T : gmap string (list string)) (M : list (list R)) :
  Mnet.chords_to_notes T 145 84 = Ok M ->
  Mnet.table_complete T /\ M = membership_matrix T.
Proof.
  intros HM. unfold Mnet.table_complete.
  destruct (decide (Forall (fun chord => is_Some (T !! chord)) Mnet.hidden2_chords))
    as [Hall|Hnot].
  - split; [exact Hall|]. rewrite (chords_to_notes_ok T Hall) in HM. congruence.
  - rewrite (chords_to_notes_missing T Hnot) in HM. discriminate.
Qed.

(** What the constructor leaves in the fields of the network. *)
Lemma MelodyNet_init_layers
    (T : gmap string (list string)) (rng : nat -> nat -> nat -> R)
    (hidden1_size : nat) (lr weight_decay cw mw decay : R) (name : string)
    (net : Mnet.MelodyNet) :
  Mnet.MelodyNet_init T rng hidden1_size lr weight_decay cw mw decay name = Ok net ->
  Mnet.table_complete T
  /\ Mnet.hidden1 net = Mnet.nn_Linear rng 0 245 hidden1_size true
  /\ Mnet.hidden2_from_hidden1 net = Mnet.nn_Linear rng 2 hidden1_size 84 true
  /\ Mnet.in_features (Mnet.hidden2_from_chord net) = 84%nat
  /\ Mnet.bias (Mnet.hidden2_from_chord net) = None
  /\ Mnet.data (Mnet.weight (Mnet.hidden2_from_chord net))
     = fill_diagonal_ cw (Mnet.random_tensor rng 4 84 84)
  /\ Mnet.in_features (Mnet.output net) = 84%nat
  /\ Mnet.bias (Mnet.output net) = None
  /\ Mnet.data (Mnet.weight (Mnet.output net))
     = Mnet.balance_and_scale mw (membership_matrix T)
  /\ Mnet.state_size net = 145%nat
  /\ Mnet.chord_size net = 84%nat.
Proof.
  unfold Mnet.MelodyNet_init, Mnet.fixed_output_weights. cbv zeta.
  destruct (Mnet.chords_to_notes T 145 84) as [M|e] eqn:HM; [|discriminate].
  cbn [mbind result_bind mret result_ret]. intros [= <-].
  destruct (chords_to_notes_inv T M HM) as [Hall ->].
  split; [exact Hall|]. repeat split; reflexivity.
Qed.

Lemma vsum_01 (c : list R) :
  Forall (fun a => a = 0 \/ a = 1) c ->
  exists k : nat, (k <= length c)%nat /\ vsum c = INR k.
Proof.
  induction 1 as [|a c Ha _ (k & Hk & IH)].
  - exists 0%nat. split; [lia|reflexivity].
  - destruct Ha as [-> | ->].
    + exists k. cbn [length vsum]. split; [lia|]. rewrite IH. lra.
    + exists (S k). cbn [length vsum]. split; [lia|]. rewrite IH, S_INR. lra.
Qed.

Lemma membership_row_01 (T : gmap string (list string)) (note : string) :
  Forall (fun a => a = 0 \/ a = 1) (membership_row T note).
Proof.
  unfold membership_row. apply Forall_forall. intros a Ha. to_fmap.
  apply list_elem_of_fmap in Ha as (chord & -> & _). apply member_01.
Qed.

Lemma membership_matrix_rows (T : gmap string (list string)) (i : nat) (c : list R) :
  membership_matrix T !! i = Some c ->
  length c = 84%nat /\ Forall (fun a => a = 0 \/ a = 1) c.
Proof.
  intros Hc. destruct i as [|i].
  - injection Hc as <-. split; [apply repeat_length|].
    apply Forall_forall. intros a Ha. apply list_elem_of_In, repeat_spec in Ha. auto.
  - unfold membership_matrix in Hc. rewrite lookup_cons_ne_0 in Hc by lia.
    cbn [pred] in Hc.
    change (map (membership_row T) (tail Mnet.output_notes))
      with (membership_row T <$> tail Mnet.output_notes) in Hc.
    rewrite list_lookup_fmap in Hc.
    destruct (tail Mnet.output_notes !! i) as [note|]; [|discriminate].
    injection Hc as <-. split; [|apply membership_row_01].
    unfold membership_row. by rewrite length_map.
Qed.

(** Line 151, in exact arithmetic.  Each row of the output weight spreads
    [melody_weights] evenly over the chords that hold the row's note: for
    some count [k] between 1 and 84 every entry of the row is 0 or
    [melody_weights / k]; the rest row is [melody_weights / 84] throughout.
    In float32 the non-zero entries are this quotient up to rounding. *)
Theorem output_weight_is_evenly_spread
    (T : gmap string (list string)) (rng : nat -> nat -> nat -> R)
    (hidden1_size : nat) (lr weight_decay cw mw decay : R) (name : string) :
  Mnet.table_complete T ->
  Mnet.notes_covered T ->
  exists net,
    Mnet.MelodyNet_init T rng hidden1_size lr weight_decay cw mw decay name = Ok net
    /\ Mnet.data (Mnet.weight (Mnet.output net)) !! 0%nat = Some (repeat (mw / 84) 84)
    /\ forall i w,
         Mnet.data (Mnet.weight (Mnet.output net)) !! i = Some w ->
         length w = 84%nat
         /\ exists k : nat,
              (1 <= k <= 84)%nat
              /\ Forall (fun a => a = 0 \/ a = mw / INR k) w.
Proof.
  intros Hall Hcov.
  destruct (MelodyNet_init_ok T rng hidden1_size lr weight_decay cw mw decay name Hall)
    as (net & Hnet & HW & _).
  exists net. split; [exact Hnet|]. rewrite HW. split.
  - rewrite balance_and_scale_lookup.
    change (membership_matrix T !! 0%nat) with (Some (ones 84)). cbn [fmap option_fmap option_map].
    f_equal. unfold div_scalar, ones. rewrite vsum_repeat, !map_repeat.
    f_equal. replace (INR 84) with 84 by (rewrite INR_IZR_INZ; reflexivity). field.
  - intros i w Hw. rewrite balance_and_scale_lookup in Hw.
    destruct (membership_matrix T !! i) as [c|] eqn:Hc; [|discriminate].
    injection Hw as <-.
    destruct (membership_matrix_rows T i c Hc) as [Hlen H01].
    pose proof (membership_matrix_row_sum T i c Hcov Hc) as Hsum.
    destruct (vsum_01 c H01) as (k & Hk & Hvs).
    split; [unfold div_scalar; by rewrite !length_map|].
    assert (k <> 0)%nat as Hk0.
    { intros ->. rewrite Hvs in Hsum. cbn in Hsum. lra. }
    assert (INR k <> 0) as HkR by (apply not_0_INR; exact Hk0).
    exists k. split; [lia|]. rewrite Hvs. unfold div_scalar.
    apply Forall_forall. intros a Ha. to_fmap.
    apply list_elem_of_fmap in Ha as (b & -> & Hb).
    apply list_elem_of_fmap in Hb as (a & -> & Ha).
    rewrite Forall_forall in H01. destruct (H01 a Ha) as [-> | ->].
    + left. unfold Rdiv. ring.
    + right. by field.
Qed.

Lemma output_weight_is_evenly_spread_witness :
  Mnet.table_complete Sample.CHORD_NOTES
  /\ Mnet.notes_covered Sample.CHORD_NOTES
  /\ exists net,
       Mnet.MelodyNet_init Sample.CHORD_NOTES Sample.rng 64 (1/100) 0 1 10 (1/2)
         "hnn" = Ok net
       /\ Mnet.data (Mnet.weight (Mnet.output net)) !! 0%nat
          = Some (repeat (10 / 84) 84)
       /\ forall i w,
            Mnet.data (Mnet.weight (Mnet.output net)) !! i = Some w ->
            length w = 84%nat
            /\ exists k : nat,
                 (1 <= k <= 84)%nat
                 /\ Forall (fun a => a = 0 \/ a = 10 / INR k) w.
Proof.
  assert (Mnet.table_complete Sample.CHORD_NOTES) as Hall.
  { apply (bool_decide_unpack _). vm_compute. exact I. }
  assert (Mnet.notes_covered Sample.CHORD_NOTES) as Hcov.
  { apply (bool_decide_unpack _). vm_compute. exact I. }
  split; [exact Hall|]. split; [exact Hcov|].
  exact (output_weight_is_evenly_spread Sample.CHORD_NOTES Sample.rng 64 (1/100) 0 1
           10 (1/2) "hnn" Hall Hcov).
Defined.

Lemma vsum_all_zero (c : list R) : Forall (fun a => a = 0) c -> vsum c = 0.
Proof.
  induction 1 as [|a c -> _ IH]; cbn [vsum]; [reflexivity|]. rewrite IH. lra.
Qed.

Lemma output_notes_block_lookup (k r : nat) :
  (k < 12)%nat -> (r < 12)%nat ->
  tail Mnet.output_notes !! (12 * k + r)%nat = Mnet.chromatic_notes !! k.
Proof.
  intros Hk Hr. pose proof output_notes_block as Hb. rewrite Forall_forall in Hb.
  rewrite (Hb (12 * k + r)%nat) by (apply elem_of_seq; lia).
  replace ((12 * k + r) / 12)%nat with k; [done|].
  apply (Nat.div_unique _ 12 k r); lia.
Qed.

Lemma membership_matrix_block (T : gmap string (list string)) (k r : nat) :
  (k < 12)%nat -> (r < 12)%nat ->
  membership_matrix T !! (1 + 12 * k + r)%nat
  = membership_row T <$> Mnet.chromatic_notes !! k.
Proof.
  intros Hk Hr. unfold membership_matrix.
  change (map (membership_row T) (tail Mnet.output_notes))
    with (membership_row T <$> tail Mnet.output_notes).
  change (1 + 12 * k + r)%nat with (S (12 * k + r)).
  rewrite lookup_cons_ne_0 by lia. cbn [pred].
  by rewrite list_lookup_fmap, output_notes_block_lookup.
Qed.

(** Line 151 is not guarded.  When the chord table is complete but some
    chromatic note passes the membership test for none of the 84 chords,
    the constructor raises nothing: it returns a network, and each of the
    twelve rows of that note has the sum 0 it is then divided by. *)
Theorem uncovered_note_divides_by_zero
    (T : gmap string (list string)) (rng : nat -> nat -> nat -> R)
    (hidden1_size : nat) (lr weight_decay cw mw decay : R) (name : string)
    (k : nat) (note : string) :
  Mnet.table_complete T ->
  Mnet.chromatic_notes !! k = Some note ->
  Forall (fun chord => from_option (Mnet.note_in_chord note) false (T !! chord) = false)
    Mnet.hidden2_chords ->
  exists M net,
    Mnet.chords_to_notes T 145 84 = Ok M
    /\ Mnet.MelodyNet_init T rng hidden1_size lr weight_decay cw mw decay name = Ok net
    /\ forall r, (r < 12)%nat ->
         exists row, M !! (1 + 12 * k + r)%nat = Some row /\ vsum row = 0.
Proof.
  intros Hall Hnote Hnone.
  destruct (MelodyNet_init_ok T rng hidden1_size lr weight_decay cw mw decay name Hall)
    as (net & Hnet & _).
  exists (membership_matrix T), net.
  split; [by apply chords_to_notes_ok|]. split; [exact Hnet|].
  intros r Hr. exists (membership_row T note). split.
  - rewrite membership_matrix_block; [by rewrite Hnote|
      by apply lookup_lt_Some in Hnote|exact Hr].
  - apply vsum_all_zero. unfold membership_row. apply Forall_forall. intros a Ha.
    to_fmap. apply list_elem_of_fmap in Ha as (chord & -> & Hin).
    rewrite Forall_forall in Hnone. unfold member. by rewrite (Hnone chord Hin).
Qed.

Lemma uncovered_note_divides_by_zero_witness :
  Mnet.table_complete Sample2.CHORD_NOTES_no_notes
  /\ Mnet.chromatic_notes !! 3%nat = Some "C"%string
  /\ Forall (fun chord =>
       from_option (Mnet.note_in_chord "C") false
         (Sample2.CHORD_NOTES_no_notes !! chord) = false) Mnet.hidden2_chords
  /\ exists M net,
       Mnet.chords_to_notes Sample2.CHORD_NOTES_no_notes 145 84 = Ok M
       /\ Mnet.MelodyNet_init Sample2.CHORD_NOTES_no_notes Sample.rng 64 (1/100) 0 1
            10 (1/2) "hnn" = Ok net
       /\ forall r, (r < 12)%nat ->
            exists row, M !! (1 + 12 * 3 + r)%nat = Some row /\ vsum row = 0.
Proof.
  assert (Mnet.table_complete Sample2.CHORD_NOTES_no_notes) as Hall.
  { apply (bool_decide_unpack _). vm_compute. exact I. }
  assert (Forall (fun chord =>
            from_option (Mnet.note_in_chord "C") false
              (Sample2.CHORD_NOTES_no_notes !! chord) = false) Mnet.hidden2_chords)
    as Hnone.
  { apply (bool_decide_unpack _). vm_compute. exact I. }
  split; [exact Hall|]. split; [reflexivity|]. split; [exact Hnone|].
  exact (uncovered_note_divides_by_zero Sample2.CHORD_NOTES_no_notes Sample.rng 64
           (1/100) 0 1 10 (1/2) "hnn" 3 "C" Hall eq_refl Hnone).
Defined.

(** ** [MelodyNet.forward] *)

Lemma random_tensor_length (rng : nat -> nat -> nat -> R) (k rows cols : nat) :
  length (Mnet.random_tensor rng k rows cols) = rows.
Proof. unfold Mnet.random_tensor. by rewrite length_map, length_seq. Qed.

Lemma relu_length (x : list R) : length (relu x) = length x.
Proof. unfold relu. by rewrite length_map. Qed.

Lemma relu_nonneg (x : list R) : Forall (fun a => 0 <= a) (relu x).
Proof.
  unfold relu. apply Forall_forall. intros a Ha. to_fmap.
  apply list_elem_of_fmap in Ha as (b & -> & _). apply Rmax_l.
Qed.

Lemma linear_no_bias (L : Mnet.Linear) (x : list R) :
  length x = Mnet.in_features L -> Mnet.bias L = None ->
  Mnet.linear L x = Ok (map (fun w => dot x w) (Mnet.data (Mnet.weight L))).
Proof.
  intros Hlen Hb. unfold Mnet.linear. by rewrite Hlen, Nat.eqb_refl, Hb.
Qed.

Lemma nn_Linear_apply (rng : nat -> nat -> nat -> R) (k n_in n_out : nat) (x : list R) :
  length x = n_in ->
  exists y, Mnet.linear (Mnet.nn_Linear rng k n_in n_out true) x = Ok y
            /\ length y = n_out.
Proof.
  intros Hlen. unfold Mnet.linear, Mnet.nn_Linear.
  cbn [Mnet.in_features Mnet.bias Mnet.weight Mnet.data].
  rewrite Hlen, Nat.eqb_refl.
  change (Mnet.random_tensor rng (S k) 1 n_out !! 0%nat)
    with (Some (map (fun j => rng (S k) 0%nat j) (seq 0 n_out))).
  cbn [default from_option]. unfold Datatypes.id.
  rewrite add_same_length
    by (by rewrite !length_map, random_tensor_length, length_seq).
  eexists. split; [reflexivity|].
  rewrite length_map, length_combine, !length_map, random_tensor_length, length_seq.
  lia.
Qed.

Lemma slice_length (a b : nat) (x : list R) :
  (b <= length x)%nat -> length (Mnet.slice a b x) = (b - a)%nat.
Proof. intros Hb. unfold Mnet.slice. rewrite length_take, length_drop. lia. Qed.

(** The forward pass on one row of 245 units: the output is the product of
    the fixed output weight with a non-negative hidden vector of 84 units. *)
Lemma forward_row_ok
    (T : gmap string (list string)) (rng : nat -> nat -> nat -> R)
    (hidden1_size : nat) (lr weight_decay cw mw decay : R) (name : string)
    (net : Mnet.MelodyNet) (x : list R) :
  Mnet.MelodyNet_init T rng hidden1_size lr weight_decay cw mw decay name = Ok net ->
  length x = 245%nat ->
  exists h2,
    length h2 = 84%nat
    /\ Forall (fun a => 0 <= a) h2
    /\ Mnet.forward_row net x
       = Ok (map (fun w => dot h2 w)
               (Mnet.balance_and_scale mw (membership_matrix T))).
Proof.
  intros Hnet Hlen.
  destruct (MelodyNet_init_layers _ _ _ _ _ _ _ _ _ _ Hnet)
    as (_ & H1 & H2 & Hcin & Hcb & Hcw & Hoin & Hob & How & Hss & Hcs).
  unfold Mnet.forward_row. rewrite H1, H2, Hss, Hcs.
  destruct (nn_Linear_apply rng 0 245 hidden1_size x Hlen) as (a1 & -> & Ha1).
  cbn [mbind result_bind].
  destruct (nn_Linear_apply rng 2 hidden1_size 84 (relu a1)) as (b1 & -> & Hb1).
  { by rewrite relu_length. }
  cbn [mbind result_bind].
  rewrite (linear_no_bias (Mnet.hidden2_from_chord net))
    by (rewrite ?slice_length, ?Hcin; try assumption; lia).
  cbn [mbind result_bind].
  rewrite add_same_length
    by (rewrite Hb1, length_map, Hcw; unfold fill_diagonal_;
        by rewrite length_imap, random_tensor_length).
  cbn [mbind result_bind].
  eexists. split; [|split; [apply relu_nonneg|]].
  2:{ rewrite (linear_no_bias (Mnet.output net)); [by rewrite How| |exact Hob].
      rewrite relu_length, length_map, length_combine, Hb1, length_map, Hcw, Hoin.
      unfold fill_diagonal_. rewrite length_imap, random_tensor_length. lia. }
  rewrite relu_length, length_map, length_combine, Hb1, length_map, Hcw.
  unfold fill_diagonal_. rewrite length_imap, random_tensor_length. lia.
Qed.

(** On a batch whose rows are all 245 wide, the network the constructor
    returns produces one row of 145 logits per input row. *)
Theorem forward_shape
    (T : gmap string (list string)) (rng : nat -> nat -> nat -> R)
    (hidden1_size : nat) (lr weight_decay cw mw decay : R) (name : string)
    (net : Mnet.MelodyNet) (X : list (list R)) :
  Mnet.MelodyNet_init T rng hidden1_size lr weight_decay cw mw decay name = Ok net ->
  Forall (fun x => length x = 245%nat) X ->
  exists Y,
    Mnet.forward net X = Ok Y
    /\ length Y = length X
    /\ Forall (fun y => length y = 145%nat) Y.
Proof.
  intros Hnet HX. unfold Mnet.forward.
  induction HX as [|x X Hx _ (Y & HY & Hlen & Hall)].
  - exists []. repeat split; constructor.
  - destruct (forward_row_ok _ _ _ _ _ _ _ _ _ net x Hnet Hx) as (h2 & _ & _ & Hrow).
    cbn [mapM]. rewrite Hrow, HY. cbn [mbind result_bind mret result_ret].
    eexists. split; [reflexivity|]. cbn [length]. split; [by rewrite Hlen|].
    constructor; [|exact Hall].
    unfold Mnet.balance_and_scale. by rewrite !length_map, membership_matrix_length.
Qed.

Lemma forward_shape_witness :
  exists net,
    Mnet.MelodyNet_init Sample.CHORD_NOTES Sample.rng 64 (1/100) 0 1 10 (1/2)
      "hnn" = Ok net
    /\ Forall (fun x => length x = 245%nat) [zeros 245; ones 245]
    /\ exists Y,
         Mnet.forward net [zeros 245; ones 245] = Ok Y
         /\ length Y = length [zeros 245; ones 245]
         /\ Forall (fun y => length y = 145%nat) Y.
Proof.
  assert (Mnet.table_complete Sample.CHORD_NOTES) as Hall.
  { apply (bool_decide_unpack _). vm_compute. exact I. }
  destruct (MelodyNet_init_ok Sample.CHORD_NOTES Sample.rng 64 (1/100) 0 1 10 (1/2)
              "hnn" Hall) as (net & Hnet & _).
  assert (Forall (fun x => length x = 245%nat) [zeros 245; ones 245]) as HX.
  { repeat constructor; apply repeat_length. }
  exists net. split; [exact Hnet|]. split; [exact HX|].
  exact (forward_shape Sample.CHORD_NOTES Sample.rng 64 (1/100) 0 1 10 (1/2) "hnn"
           net [zeros 245; ones 245] Hnet HX).
Defined.

(** A batch that holds a row of any other width than 245 is rejected with
    the shape error of the first layer. *)
Theorem forward_rejects_wrong_width
    (T : gmap string (list string)) (rng : nat -> nat -> nat -> R)
    (hidden1_size : nat) (lr weight_decay cw mw decay : R) (name : string)
    (net : Mnet.MelodyNet) (X : list (list R)) :
  Mnet.MelodyNet_init T rng hidden1_size lr weight_decay cw mw decay name = Ok net ->
  Exists (fun x => length x <> 245%nat) X ->
  Mnet.forward net X = Raise RuntimeError.
Proof.
  intros Hnet. destruct (MelodyNet_init_fields _ _ _ _ _ _ _ _ _ _ Hnet) as [_ Hin].
  unfold Mnet.forward. induction X as [|x X IH]; intros Hex; [inversion Hex|].
  cbn [mapM]. destruct (decide (length x = 245%nat)) as [Hx|Hx].
  - destruct (forward_row_ok _ _ _ _ _ _ _ _ _ net x Hnet Hx) as (h2 & _ & _ & ->).
    apply Exists_cons in Hex as [Hex|Hex]; [congruence|].
    cbn [mbind result_bind]. by rewrite (IH Hex).
  - unfold Mnet.forward_row.
    rewrite (linear_wrong_width (Mnet.hidden1 net) x) by (rewrite Hin; exact Hx).
    reflexivity.
Qed.

Lemma forward_rejects_wrong_width_witness :
  exists net,
    Mnet.MelodyNet_init Sample.CHORD_NOTES Sample.rng 64 (1/100) 0 1 10 (1/2)
      "hnn" = Ok net
    /\ Exists (fun x => length x <> 245%nat) [zeros 245; zeros 159]
    /\ Mnet.forward net [zeros 245; zeros 159] = Raise RuntimeError.
Proof.
  assert (Mnet.table_complete Sample.CHORD_NOTES) as Hall.
  { apply (bool_decide_unpack _). vm_compute. exact I. }
  destruct (MelodyNet_init_ok Sample.CHORD_NOTES Sample.rng 64 (1/100) 0 1 10 (1/2)
              "hnn" Hall) as (net & Hnet & _).
  assert (Exists (fun x => length x <> 245%nat) [zeros 245; zeros 159]) as HX.
  { apply Exists_cons_tl, Exists_cons_hd. unfold zeros. rewrite repeat_length. lia. }
  exists net. split; [exact Hnet|]. split; [exact HX|].
  exact (forward_rejects_wrong_width Sample.CHORD_NOTES Sample.rng 64 (1/100) 0 1 10
           (1/2) "hnn" net [zeros 245; zeros 159] Hnet HX).
Defined.

Lemma dot_nonneg (x w : list R) :
  Forall (fun a => 0 <= a) x -> Forall (fun a => 0 <= a) w -> 0 <= dot x w.
Proof.
  intros Hx. revert w. unfold dot.
  induction Hx as [|a x Ha _ IH]; intros w Hw; [cbn; lra|].
  destruct Hw as [|b w Hb Hw]; [cbn; lra|]. cbn.
  specialize (IH w Hw). nra.
Qed.

(** With [melody_weights >= 0] and a chord table that covers every note,
    no logit is negative: the output is a non-negative combination of
    hidden units that went through a ReLU. *)
Theorem forward_logits_nonneg
    (T : gmap string (list string)) (rng : nat -> nat -> nat -> R)
    (hidden1_size : nat) (lr weight_decay cw mw decay : R) (name : string)
    (net : Mnet.MelodyNet) (x : list R) :
  Mnet.MelodyNet_init T rng hidden1_size lr weight_decay cw mw decay name = Ok net ->
  Mnet.notes_covered T ->
  0 <= mw ->
  length x = 245%nat ->
  exists y, Mnet.forward_row net x = Ok y /\ Forall (fun a => 0 <= a) y.
Proof.
  intros Hnet Hcov Hmw Hlen.
  destruct (forward_row_ok _ _ _ _ _ _ _ _ _ net x Hnet Hlen) as (h2 & _ & Hh2 & ->).
  eexists. split; [reflexivity|]. apply Forall_forall. intros a Ha. to_fmap.
  apply list_elem_of_fmap in Ha as (w & -> & Hw).
  apply dot_nonneg; [exact Hh2|].
  apply list_elem_of_lookup in Hw as [i Hw]. rewrite balance_and_scale_lookup in Hw.
  destruct (membership_matrix T !! i) as [c|] eqn:Hc; [|discriminate].
  injection Hw as <-.
  pose proof (membership_matrix_row_sum T i c Hcov Hc) as Hsum.
  destruct (membership_matrix_rows T i c Hc) as [_ H01].
  unfold div_scalar. apply Forall_forall. intros a Ha. to_fmap.
  apply list_elem_of_fmap in Ha as (b & -> & Hb).
  apply list_elem_of_fmap in Hb as (a & -> & Ha).
  rewrite Forall_forall in H01.
  apply Rmult_le_pos; [|exact Hmw].
  apply Rmult_le_pos; [destruct (H01 a Ha) as [-> | ->]; lra|].
  apply Rlt_le, Rinv_0_lt_compat. lra.
Qed.

Lemma forward_logits_nonneg_witness :
  exists net,
    Mnet.MelodyNet_init Sample.CHORD_NOTES Sample.rng 64 (1/100) 0 1 10 (1/2)
      "hnn" = Ok net
    /\ Mnet.notes_covered Sample.CHORD_NOTES
    /\ 0 <= 10
    /\ length (ones 245) = 245%nat
    /\ exists y, Mnet.forward_row net (ones 245) = Ok y
                 /\ Forall (fun a => 0 <= a) y.
Proof.
  assert (Mnet.table_complete Sample.CHORD_NOTES) as Hall.
  { apply (bool_decide_unpack _). vm_compute. exact I. }
  assert (Mnet.notes_covered Sample.CHORD_NOTES) as Hcov.
  { apply (bool_decide_unpack _). vm_compute. exact I. }
  destruct (MelodyNet_init_ok Sample.CHORD_NOTES Sample.rng 64 (1/100) 0 1 10 (1/2)
              "hnn" Hall) as (net & Hnet & _).
  assert (length (ones 245) = 245%nat) as Hlen by apply repeat_length.
  assert (0 <= 10) as Hmw by lra.
  exists net. split; [exact Hnet|]. split; [exact Hcov|]. split; [exact Hmw|].
  split; [exact Hlen|].
  exact (forward_logits_nonneg Sample.CHORD_NOTES Sample.rng 64 (1/100) 0 1 10 (1/2)
           "hnn" net (ones 245) Hnet Hcov Hmw Hlen).
Defined.

Lemma dot_one_hot_zero (c : nat) (row : list R) :
  forall (o n : nat), (c < o)%nat ->
    dot (map (fun j => if Nat.eqb c j then 1 else 0) (seq o n)) row = 0.
Proof.
  unfold dot. induction row as [|a row IH]; intros o n Hc.
  - destruct n; reflexivity.
  - destruct n as [|n]; [reflexivity|]. cbn [seq map combine fst snd vsum].
    rewrite (IH (S o) n) by lia.
    destruct (Nat.eqb_spec c o); [lia|]. ring.
Qed.

Lemma dot_one_hot (c : nat) (row : list R) :
  forall (o : nat), (o <= c)%nat ->
    dot (map (fun j => if Nat.eqb c j then 1 else 0) (seq o (length row))) row
    = default 0 (row !! (c - o)%nat).
Proof.
  induction row as [|a row IH]; intros o Hc; [reflexivity|].
  cbn [length seq map]. unfold dot. cbn [combine map fst snd vsum].
  destruct (Nat.eqb_spec c o) as [->|Hne].
  - fold (dot (map (fun j => if Nat.eqb o j then 1 else 0) (seq (S o) (length row))) row).
    rewrite dot_one_hot_zero by lia. rewrite Nat.sub_diag.
    change (default 0 ((a :: row) !! 0%nat)) with a. ring.
  - fold (dot (map (fun j => if Nat.eqb c j then 1 else 0) (seq (S o) (length row))) row).
    rewrite (IH (S o)) by lia.
    replace (c - o)%nat with (S (c - S o)) by lia.
    change ((a :: row) !! S (c - S o)) with (row !! (c - S o)%nat). ring.
Qed.

(** The chord path of the second hidden layer.  A one-hot chord input
    sends exactly [chord_weights] to the neuron of its own chord, and to
    every other neuron the weight the initialisation drew for the pair. *)
Theorem chord_unit_reaches_its_neuron
    (T : gmap string (list string)) (rng : nat -> nat -> nat -> R)
    (hidden1_size : nat) (lr weight_decay cw mw decay : R) (name : string)
    (net : Mnet.MelodyNet) (c : nat) :
  Mnet.MelodyNet_init T rng hidden1_size lr weight_decay cw mw decay name = Ok net ->
  (c < 84)%nat ->
  exists y,
    Mnet.linear (Mnet.hidden2_from_chord net) (eye_row 84 c) = Ok y
    /\ length y = 84%nat
    /\ forall j, (j < 84)%nat ->
         y !! j = Some (if decide (j = c) then cw else rng 4%nat j c).
Proof.
  intros Hnet Hc.
  destruct (MelodyNet_init_layers _ _ _ _ _ _ _ _ _ _ Hnet)
    as (_ & _ & _ & Hcin & Hcb & Hcw & _).
  rewrite linear_no_bias by (rewrite ?eye_row_length, ?Hcin; done).
  eexists. split; [reflexivity|]. rewrite Hcw. split.
  { unfold fill_diagonal_. by rewrite length_map, length_imap, random_tensor_length. }
  intros j Hj. to_fmap. rewrite list_lookup_fmap.
  pose proof (fill_diagonal_entry rng cw 4 84 84 j c Hj Hc) as Hentry.
  unfold entry in Hentry.
  assert (exists row, fill_diagonal_ cw (Mnet.random_tensor rng 4 84 84) !! j = Some row
                      /\ length row = 84%nat) as (row & Hrow & Hlen).
  { unfold fill_diagonal_. rewrite list_lookup_imap, random_tensor_lookup by exact Hj.
    eexists. split; [reflexivity|]. by rewrite length_insert, length_map, length_seq. }
  rewrite Hrow in Hentry |- *.
  change (row !! c = Some (if decide (j = c) then cw else rng 4%nat j c)) in Hentry.
  change (Some (dot (eye_row 84 c) row)
          = Some (if decide (j = c) then cw else rng 4%nat j c)).
  f_equal. unfold eye_row. rewrite <- Hlen, (dot_one_hot c row 0) by lia.
  by rewrite Nat.sub_0_r, Hentry.
Qed.

Lemma chord_unit_reaches_its_neuron_witness :
  exists net,
    Mnet.MelodyNet_init Sample.CHORD_NOTES Sample.rng 64 (1/100) 0 1 10 (1/2)
      "hnn" = Ok net
    /\ (7 < 84)%nat
    /\ exists y,
         Mnet.linear (Mnet.hidden2_from_chord net) (eye_row 84 7) = Ok y
         /\ length y = 84%nat
         /\ forall j, (j < 84)%nat ->
              y !! j = Some (if decide (j = 7%nat) then 1 else Sample.rng 4%nat j 7%nat).
Proof.
  assert (Mnet.table_complete Sample.CHORD_NOTES) as Hall.
  { apply (bool_decide_unpack _). vm_compute. exact I. }
  destruct (MelodyNet_init_ok Sample.CHORD_NOTES Sample.rng 64 (1/100) 0 1 10 (1/2)
              "hnn" Hall) as (net & Hnet & _).
  assert (7 < 84)%nat as Hc by lia.
  exists net. split; [exact Hnet|]. split; [exact Hc|].
  exact (chord_unit_reaches_its_neuron Sample.CHORD_NOTES Sample.rng 64 (1/100) 0 1
           10 (1/2) "hnn" net 7 Hnet Hc).
Defined.

(** * Further properties of [utils/play.py] *)

(** ** The inputs of a timestep *)

(** Lines 143-144.  The meter units alternate with the parity of the
    timestep: [[1, 0]] on even timesteps and [[0, 1]] on odd ones. *)
Theorem meter_units_alternate (timestep : nat) :
  Play.meter_units timestep = (if Nat.even timestep then [1; 0] else [0; 1])
  /\ Play.meter_units (timestep + 2) = Play.meter_units timestep.
Proof.
  assert (forall t, Play.meter_units t = if Nat.even t then [1; 0] else [0; 1]) as H.
  { intros t. unfold Play.meter_units, eye_row.
    destruct (Nat.even t) eqn:Hev.
    - apply Nat.even_spec in Hev as [k ->].
      replace (2 * k)%nat with (0 + k * 2)%nat by lia.
      by rewrite Nat.Div0.mod_add.
    - assert (Nat.odd t = true) as Hodd by (by rewrite <- Nat.negb_even, Hev).
      apply Nat.odd_spec in Hodd as [k ->].
      replace (2 * k + 1)%nat with (1 + k * 2)%nat by lia.
      by rewrite Nat.Div0.mod_add. }
  split; [apply H|]. rewrite !H.
  replace (timestep + 2)%nat with (S (S timestep)) by lia. reflexivity.
Qed.

Lemma eye_row_lookup (m i j : nat) :
  (j < m)%nat -> eye_row m i !! j = Some (if Nat.eqb i j then 1 else 0).
Proof.
  intros Hj. unfold eye_row. to_fmap. by rewrite list_lookup_fmap, lookup_seq_lt.
Qed.

Lemma eye_row_sum_from (i : nat) :
  forall (m o : nat),
    vsum (map (fun j => if Nat.eqb i j then 1 else 0) (seq o m))
    = if decide (o <= i < o + m)%nat then 1 else 0.
Proof.
  induction m as [|m IH]; intros o.
  - cbn. case_decide; [lia|reflexivity].
  - cbn [seq map vsum]. rewrite (IH (S o)).
    destruct (Nat.eqb_spec i o); repeat case_decide; try lia; lra.
Qed.

(** Lines 134-140.  A symbol whose first two characters the index table
    maps to an index [i] from -12 to 11 is encoded as a one-hot vector over
    12 units, with its 1 at position [i] counted from the end when [i] is
    negative (position [i mod 12]). *)
Theorem melody_input_is_one_hot
    (NOTE_ENC_TO_IDX_REF : gmap string Z) (note : string) (i : Z) :
  NOTE_ENC_TO_IDX_REF !! slice_to 2 note = Some i ->
  (-12 <= i < 12)%Z ->
  exists v,
    Play.melody_input NOTE_ENC_TO_IDX_REF note = Ok v
    /\ vsum v = 1
    /\ forall j, (j < 12)%nat ->
         v !! j = Some (if decide (Z.of_nat j = i mod 12)%Z then 1 else 0).
Proof.
  intros Hlook Hi. unfold Play.melody_input. rewrite Hlook. unfold Play.eye_index.
  destruct (decide (0 <= i < Z.of_nat 12)%Z) as [Hpos|Hneg].
  - eexists. split; [reflexivity|]. split.
    + unfold eye_row. rewrite eye_row_sum_from. case_decide; [reflexivity|lia].
    + intros j Hj. rewrite eye_row_lookup by exact Hj.
      rewrite Z.mod_small by lia.
      destruct (Nat.eqb_spec (Z.to_nat i) j); case_decide; try reflexivity; lia.
  - rewrite decide_True by lia. eexists. split; [reflexivity|]. split.
    + unfold eye_row. rewrite eye_row_sum_from. case_decide; [reflexivity|lia].
    + intros j Hj. rewrite eye_row_lookup by exact Hj.
      replace (i mod 12)%Z with (12 + i)%Z
        by (apply (Z.mod_unique i 12 (-1) (12 + i)); lia).
      destruct (Nat.eqb_spec (Z.to_nat (Z.of_nat 12 + i)) j); case_decide;
        try reflexivity; lia.
Qed.

Lemma melody_input_is_one_hot_witness :
  Sample.NOTE_ENC_TO_IDX_REF !! slice_to 2 "3041" = Some 3%Z
  /\ (-12 <= 3 < 12)%Z
  /\ exists v,
       Play.melody_input Sample.NOTE_ENC_TO_IDX_REF "3041" = Ok v
       /\ vsum v = 1
       /\ forall j, (j < 12)%nat ->
            v !! j = Some (if decide (Z.of_nat j = 3 mod 12)%Z then 1 else 0).
Proof.
  assert (Sample.NOTE_ENC_TO_IDX_REF !! slice_to 2 "3041" = Some 3%Z) as Hlook.
  { vm_compute. reflexivity. }
  assert (-12 <= 3 < 12)%Z as Hi by lia.
  split; [exact Hlook|]. split; [exact Hi|].
  exact (melody_input_is_one_hot Sample.NOTE_ENC_TO_IDX_REF "3041" 3 Hlook Hi).
Defined.

(** Line 138 with an index the table should not hold.  A melody index
    below -12 or above 11 ends the run with an IndexError before the
    network is called: nothing is logged. *)
Theorem bad_melody_index_aborts
    (NOTE_ENC_TO_IDX_REF : gmap string Z)
    (NOTE_ENC_TO_NOTE_STR_REF : gmap string string)
    (IDX_TO_CHORD_STR_REF : gmap nat string)
    (CHORD_NOTES : gmap string (list string))
    (NOTE_FREQUENCIES : gmap string R)
    (hnn : Play.Network) (note : string) (rest : list string) (i : Z) :
  NOTE_ENC_TO_IDX_REF !! slice_to 2 note = Some i ->
  (i < -12 \/ 12 <= i)%Z ->
  Play.play_song NOTE_ENC_TO_IDX_REF NOTE_ENC_TO_NOTE_STR_REF IDX_TO_CHORD_STR_REF
    CHORD_NOTES NOTE_FREQUENCIES hnn (note :: rest)
  = ([], Raise IndexError).
Proof.
  intros Hi Hout. unfold Play.play_song. cbn [Play.play_loop].
  unfold Play.timestep_body, Play.recurrence, Play.inputs, Play.melody_input.
  rewrite Hi. unfold Play.eye_index.
  rewrite decide_False by lia. rewrite decide_False by lia. reflexivity.
Qed.

Lemma bad_melody_index_aborts_witness :
  (<["zz"%string := 12%Z]> Sample.NOTE_ENC_TO_IDX_REF) !! slice_to 2 "zz41"
  = Some 12%Z
  /\ (12 < -12 \/ 12 <= 12)%Z
  /\ Play.play_song (<["zz"%string := 12%Z]> Sample.NOTE_ENC_TO_IDX_REF)
       Sample.NOTE_ENC_TO_NOTE_STR_REF Sample.IDX_TO_CHORD_STR_REF
       Sample.CHORD_NOTES Sample.NOTE_FREQUENCIES Sample.hnn ["zz41"; "3041"]%string
     = ([], Raise IndexError).
Proof.
  assert ((<["zz"%string := 12%Z]> Sample.NOTE_ENC_TO_IDX_REF) !! slice_to 2 "zz41"
          = Some 12%Z) as Hi by apply lookup_insert_eq.
  assert (12 < -12 \/ 12 <= 12)%Z as Hout by lia.
  split; [exact Hi|]. split; [exact Hout|].
  exact (bad_melody_index_aborts _ Sample.NOTE_ENC_TO_NOTE_STR_REF
           Sample.IDX_TO_CHORD_STR_REF Sample.CHORD_NOTES Sample.NOTE_FREQUENCIES
           Sample.hnn "zz41" ["3041"%string] 12 Hi Hout).
Defined.

(** ** The state update *)

Lemma zip_plus_lookup (x y : list R) (j : nat) (p q : R) :
  x !! j = Some p -> y !! j = Some q ->
  map (fun p => fst p + snd p) (combine x y) !! j = Some (p + q).
Proof.
  revert y j. induction x as [|a x IH]; intros [|b y] [|j] Hx Hy;
    try discriminate.
  - injection Hx as <-. injection Hy as <-. reflexivity.
  - cbn. apply IH; assumption.
Qed.

Lemma scale_lookup (c : R) (x : list R) (j : nat) :
  scale c x !! j = Rmult c <$> x !! j.
Proof. unfold scale. to_fmap. apply list_lookup_fmap. Qed.

(** Lines 153-154 on a state that is a distribution, in exact arithmetic:
    the new state is the mix of the softmax of the logits and of the old
    state with the weights [1 / (1 + decay)] and [decay / (1 + decay)].
    In float32 the entries are these values up to rounding. *)
Theorem update_is_a_weighted_mix (decay : R) (output state_units : list R) :
  distribution state_units ->
  length output = length state_units ->
  output <> [] ->
  0 <= decay ->
  exists s',
    Play.update_state decay output state_units = Ok s'
    /\ length s' = length state_units
    /\ forall j p q,
         softmax output !! j = Some p ->
         state_units !! j = Some q ->
         s' !! j = Some (p / (1 + decay) + decay / (1 + decay) * q).
Proof.
  intros [Hnn Hsum] Hlen Hne Hdecay. unfold Play.update_state.
  rewrite (blend_ok decay output state_units Hlen).
  cbn [mbind result_bind mret result_ret].
  destruct (blend_sum decay output state_units Hlen Hne Hdecay Hnn) as (_ & Hl & _).
  eexists. split; [reflexivity|]. split; [exact Hl|].
  intros j p q Hp Hq. unfold Play.renormalize, div_scalar. to_fmap.
  rewrite list_lookup_fmap.
  change ((fun p0 : R * R => p0.1 + p0.2) <$> combine (softmax output) (scale decay state_units))
    with (map (fun p0 : R * R => p0.1 + p0.2) (combine (softmax output) (scale decay state_units))).
  rewrite (zip_plus_lookup _ _ j p (decay * q) Hp) by (by rewrite scale_lookup, Hq).
  rewrite vsum_zip_plus by (by rewrite softmax_length, scale_length).
  rewrite softmax_sum by exact Hne. rewrite vsum_scale, Hsum.
  cbn. f_equal. field. lra.
Qed.

Lemma update_is_a_weighted_mix_witness :
  distribution [1 / 2; 1 / 2]
  /\ length [0; 0] = length [1 / 2; 1 / 2]
  /\ [0; 0] <> []
  /\ 0 <= 1 / 2
  /\ exists s',
       Play.update_state (1 / 2) [0; 0] [1 / 2; 1 / 2] = Ok s'
       /\ length s' = length [1 / 2; 1 / 2]
       /\ forall j p q,
            softmax [0; 0] !! j = Some p ->
            [1 / 2; 1 / 2] !! j = Some q ->
            s' !! j = Some (p / (1 + 1 / 2) + 1 / 2 / (1 + 1 / 2) * q).
Proof.
  assert (distribution [1 / 2; 1 / 2]) as Hd.
  { split; [repeat constructor; lra|cbn; lra]. }
  assert (length [0; 0] = length [1 / 2; 1 / 2]) as Hlen by reflexivity.
  assert ([0; 0] <> @nil R) as Hne by discriminate.
  assert (0 <= 1 / 2) as Hdecay by lra.
  split; [exact Hd|]. split; [exact Hlen|]. split; [exact Hne|]. split; [exact Hdecay|].
  exact (update_is_a_weighted_mix (1 / 2) [0; 0] [1 / 2; 1 / 2] Hd Hlen Hne Hdecay).
Defined.

(** Line 153 under torch's broadcasting rule: logits whose width differs
    from the width of the state, neither of them being 1, cannot be added
    to it, and the update fails with a shape error. *)
Theorem update_rejects_other_width (decay : R) (output state_units : list R) :
  length output <> length state_units ->
  length output <> 1%nat ->
  length state_units <> 1%nat ->
  Play.update_state decay output state_units = Raise RuntimeError.
Proof.
  intros Hne Ho Hs. unfold Play.update_state, Play.blend, add.
  rewrite softmax_length, scale_length.
  apply Nat.eqb_neq in Hne. rewrite Hne.
  pose proof (softmax_length output) as Hlo.
  pose proof (scale_length decay state_units) as Hls.
  destruct (softmax output) as [|a [|a' x]]; cbn [length] in Hlo; try lia;
    destruct (scale decay state_units) as [|b [|b' y]]; cbn [length] in Hls;
    try lia; reflexivity.
Qed.

Lemma update_rejects_other_width_witness :
  length [1; 2; 3] <> length [0; 0]
  /\ length [1; 2; 3] <> 1%nat
  /\ length [0; 0] <> 1%nat
  /\ Play.update_state (1 / 2) [1; 2; 3] [0; 0] = Raise RuntimeError.
Proof.
  assert (length [1; 2; 3] <> length [0; 0]) as Hne by (cbn; lia).
  assert (length [1; 2; 3] <> 1%nat) as Ho by (cbn; lia).
  assert (length [0; 0] <> 1%nat) as Hs by (cbn; lia).
  split; [exact Hne|]. split; [exact Ho|]. split; [exact Hs|].
  exact (update_rejects_other_width (1 / 2) [1; 2; 3] [0; 0] Hne Ho Hs).
Defined.

(** ** Playback *)

Lemma note_freqs_missing (NOTE_FREQUENCIES : gmap string R) (chord_notes : list string) :
  Exists (fun note => NOTE_FREQUENCIES !! note = None) chord_notes ->
  Play.note_freqs NOTE_FREQUENCIES chord_notes = Raise KeyError.
Proof.
  induction chord_notes as [|note rest IH]; intros Hex; [inversion Hex|].
  cbn [Play.note_freqs]. unfold getitem.
  destruct (NOTE_FREQUENCIES !! note) as [f|] eqn:Hf; [|reflexivity].
  apply Exists_cons in Hex as [Hex|Hex]; [congruence|].
  cbn [mbind result_bind]. by rewrite (IH Hex).
Qed.

(** [play_chord] either plays the chord, once, or raises a KeyError
    without a sound.  It plays exactly when the label is a key of the
    chord table and all its notes are keys of the frequency table. *)
Theorem play_chord_plays_or_raises_KeyError
    (CHORD_NOTES : gmap string (list string)) (NOTE_FREQUENCIES : gmap string R)
    (chord : option string) :
  (exists c, chord = Some c
             /\ chord_playable CHORD_NOTES NOTE_FREQUENCIES c
             /\ Play.play_chord CHORD_NOTES NOTE_FREQUENCIES chord
                = ([Play.ChordSound c], Ok tt))
  \/ ((forall c, chord = Some c -> ~ chord_playable CHORD_NOTES NOTE_FREQUENCIES c)
      /\ Play.play_chord CHORD_NOTES NOTE_FREQUENCIES chord = ([], Raise KeyError)).
Proof.
  destruct chord as [c|]; [|right; split; [intros c [=]|reflexivity]].
  unfold Play.play_chord, getitem.
  destruct (CHORD_NOTES !! c) as [chord_notes|] eqn:Hc.
  - destruct (decide (Forall (fun note => is_Some (NOTE_FREQUENCIES !! note)) chord_notes))
      as [Hall|Hnot].
    + left. exists c. split; [reflexivity|]. split; [by exists chord_notes|].
      destruct (note_freqs_ok NOTE_FREQUENCIES chord_notes Hall) as [fs Hfs].
      cbn. by rewrite Hfs.
    + right. split.
      * intros c' [= <-] (chord_notes' & Hc' & Hall). congruence.
      * apply not_Forall_Exists in Hnot; [|apply _].
        cbn. rewrite note_freqs_missing; [reflexivity|].
        eapply Exists_impl; [exact Hnot|]. intros note Hn. by apply eq_None_not_Some.
  - right. split; [|reflexivity].
    intros c' [= <-] (chord_notes & Hc' & _). congruence.
Qed.

(** [play_comp] sounds the chord before it looks the note up: when the
    chord can be played and the note is not a key of the frequency table,
    the chord has sounded and the call ends with a KeyError. *)
Theorem play_comp_unknown_note
    (CHORD_NOTES : gmap string (list string)) (NOTE_FREQUENCIES : gmap string R)
    (note chord : string) :
  chord_playable CHORD_NOTES NOTE_FREQUENCIES chord ->
  NOTE_FREQUENCIES !! note = None ->
  Play.play_comp CHORD_NOTES NOTE_FREQUENCIES [Some note] (Some chord)
  = ([Play.ChordSound chord], Raise KeyError).
Proof.
  intros Hchord Hnote. unfold Play.play_comp.
  rewrite (play_chord_ok CHORD_NOTES NOTE_FREQUENCIES chord Hchord).
  cbn. unfold getitem. by rewrite Hnote.
Qed.

Lemma sample_Cmaj_playable :
  chord_playable Sample.CHORD_NOTES Sample.NOTE_FREQUENCIES "Cmaj".
Proof.
  exists ["C4"; "E4"; "G4"]%string. split; [vm_compute; reflexivity|].
  assert (forallb (fun note => bool_decide (is_Some (Sample.NOTE_FREQUENCIES !! note)))
            ["C4"; "E4"; "G4"]%string = true) as Hall by (vm_compute; reflexivity).
  rewrite forallb_forall in Hall. apply Forall_forall. intros note Hnote.
  apply list_elem_of_In in Hnote. exact (bool_decide_eq_true_1 _ (Hall note Hnote)).
Qed.

Lemma play_comp_unknown_note_witness :
  chord_playable Sample.CHORD_NOTES Sample.NOTE_FREQUENCIES "Cmaj"
  /\ Sample.NOTE_FREQUENCIES !! "C9"%string = None
  /\ Play.play_comp Sample.CHORD_NOTES Sample.NOTE_FREQUENCIES [Some "C9"%string]
       (Some "Cmaj"%string)
     = ([Play.ChordSound "Cmaj"], Raise KeyError).
Proof.
  assert (Sample.NOTE_FREQUENCIES !! "C9"%string = None) as Hnote.
  { vm_compute. reflexivity. }
  split; [exact sample_Cmaj_playable|]. split; [exact Hnote|].
  exact (play_comp_unknown_note Sample.CHORD_NOTES Sample.NOTE_FREQUENCIES "C9" "Cmaj"
           sample_Cmaj_playable Hnote).
Defined.

(** Lines 162-167 with logits the chord index table does not cover: when
    the argmax of the logits is not a key of the table, the line printed
    names no chord, and [play_chord] then raises a KeyError. *)
Theorem unknown_chord_index_prints_None
    (NOTE_ENC_TO_NOTE_STR_REF : gmap string string)
    (IDX_TO_CHORD_STR_REF : gmap nat string)
    (CHORD_NOTES : gmap string (list string))
    (NOTE_FREQUENCIES : gmap string R)
    (note : string) (output : list R) (note_str : option string) (i : nat) :
  Play.note_string NOTE_ENC_TO_NOTE_STR_REF note = Ok note_str ->
  argmax output = Ok i ->
  IDX_TO_CHORD_STR_REF !! i = None ->
  Play.playback NOTE_ENC_TO_NOTE_STR_REF IDX_TO_CHORD_STR_REF CHORD_NOTES
    NOTE_FREQUENCIES note output
  = ([Play.Printed note_str None], Raise KeyError).
Proof.
  intros Hstr Hi Hnone. unfold Play.playback. rewrite Hstr, Hi.
  cbn [Play.lift mbind Play.io_bind]. by rewrite Hnone.
Qed.

Lemma unknown_chord_index_prints_None_witness :
  Play.note_string Sample.NOTE_ENC_TO_NOTE_STR_REF "0000" = Ok None
  /\ argmax [0; 0; 1] = Ok 2%nat
  /\ (delete 2%nat Sample.IDX_TO_CHORD_STR_REF) !! 2%nat = None
  /\ Play.playback Sample.NOTE_ENC_TO_NOTE_STR_REF
       (delete 2%nat Sample.IDX_TO_CHORD_STR_REF) Sample.CHORD_NOTES
       Sample.NOTE_FREQUENCIES "0000" [0; 0; 1]
     = ([Play.Printed None None], Raise KeyError).
Proof.
  assert (Play.note_string Sample.NOTE_ENC_TO_NOTE_STR_REF "0000" = Ok None) as Hstr.
  { unfold Play.note_string.
    assert (Sample.NOTE_ENC_TO_NOTE_STR_REF !! slice_to 2 "0000" = None) as ->
      by (vm_compute; reflexivity).
    reflexivity. }
  assert (argmax [0; 0; 1] = Ok 2%nat) as Hi.
  { cbn [argmax argmax_from]. destruct (Rlt_dec 0 0) as [H|_]; [lra|].
    destruct (Rlt_dec 0 1) as [_|H]; [reflexivity|lra]. }
  assert ((delete 2%nat Sample.IDX_TO_CHORD_STR_REF) !! 2%nat = None) as Hnone
    by apply lookup_delete_eq.
  split; [exact Hstr|]. split; [exact Hi|]. split; [exact Hnone|].
  exact (unknown_chord_index_prints_None Sample.NOTE_ENC_TO_NOTE_STR_REF
           (delete 2%nat Sample.IDX_TO_CHORD_STR_REF) Sample.CHORD_NOTES
           Sample.NOTE_FREQUENCIES "0000" [0; 0; 1] None 2 Hstr Hi Hnone).
Defined.

(** ** The decoded chord *)

Lemma argmax_from_spec (rest : list R) :
  forall (best : R) (best_idx idx : nat),
    (best_idx < idx)%nat ->
    let i := argmax_from best best_idx idx rest in
    let m := if decide (i = best_idx) then best else default 0 (rest !! (i - idx)%nat) in
    (i = best_idx \/ (idx <= i < idx + length rest)%nat)
    /\ best <= m
    /\ (i <> best_idx -> best < m /\ rest !! (i - idx)%nat = Some m)
    /\ (forall j v, rest !! j = Some v -> v <= m)
    /\ (forall j v, rest !! j = Some v -> (idx + j < i)%nat -> v < m).
Proof.
  induction rest as [|a rest IH]; intros best best_idx idx Hlt; cbn zeta.
  - cbn [argmax_from]. rewrite decide_True by reflexivity.
    split; [by left|]. split; [lra|]. split; [congruence|].
    split; intros j v Hj; discriminate.
  - cbn [argmax_from length]. destruct (Rlt_dec best a) as [Hba|Hba].
    + specialize (IH a idx (S idx) ltac:(lia)). cbn zeta in IH.
      set (i := argmax_from a idx (S idx) rest) in *.
      destruct IH as (Hrange & Hle & Hstrict & Hall & Hbefore).
      assert (i <> best_idx) as Hne by lia.
      rewrite decide_False by exact Hne.
      assert (default 0 ((a :: rest) !! (i - idx)%nat)
              = (if decide (i = idx) then a else default 0 (rest !! (i - S idx)%nat))
              /\ (i <> idx -> (a :: rest) !! (i - idx)%nat = rest !! (i - S idx)%nat))
        as [Hm Hm'].
      { case_decide as Hi.
        - subst i. rewrite Hi, Nat.sub_diag. split; [reflexivity|congruence].
        - replace (i - idx)%nat with (S (i - S idx)) by lia. split; [reflexivity|done]. }
      rewrite Hm. split; [right; lia|]. split; [lra|]. split.
      { intros _. split; [lra|]. case_decide as Hi.
        - rewrite Hi, Nat.sub_diag. reflexivity.
        - rewrite (Hm' Hi). by apply Hstrict. }
      split.
      * intros [|j] v Hj; [injection Hj as <-; exact Hle|]. by apply (Hall j).
      * intros [|j] v Hj Hji.
        -- injection Hj as <-. apply Hstrict. lia.
        -- apply (Hbefore j); [exact Hj|lia].
    + specialize (IH best best_idx (S idx) ltac:(lia)). cbn zeta in IH.
      set (i := argmax_from best best_idx (S idx) rest) in *.
      destruct IH as (Hrange & Hle & Hstrict & Hall & Hbefore).
      assert ((if decide (i = best_idx) then best
               else default 0 ((a :: rest) !! (i - idx)%nat))
              = (if decide (i = best_idx) then best
                 else default 0 (rest !! (i - S idx)%nat))
              /\ (i <> best_idx -> (a :: rest) !! (i - idx)%nat = rest !! (i - S idx)%nat))
        as [Hm Hm'].
      { assert (i <> best_idx -> (a :: rest) !! (i - idx)%nat = rest !! (i - S idx)%nat)
          as Hstep.
        { intros Hi. replace (i - idx)%nat with (S (i - S idx)) by lia. reflexivity. }
        split; [|exact Hstep]. case_decide as Hi; [reflexivity|]. by rewrite Hstep. }
      rewrite Hm. split; [destruct Hrange; [by left|right; lia]|].
      split; [exact Hle|]. split.
      { intros Hi. rewrite (Hm' Hi). by apply Hstrict. }
      split.
      * intros [|j] v Hj; [injection Hj as <-; lra|]. by apply (Hall j).
      * intros [|j] v Hj Hji.
        -- injection Hj as <-. destruct (decide (i = best_idx)) as [Hi|Hi]; [lia|].
           destruct (Hstrict Hi) as [Hlt' _]. lra.
        -- apply (Hbefore j); [exact Hj|lia].
Qed.

(** Line 162.  The index that selects the chord label is the position of
    a largest logit, and of the first one when several are equal: no logit
    is larger, and every logit before it is strictly smaller. *)
Theorem argmax_is_first_maximum (output : list R) (i : nat) :
  argmax output = Ok i ->
  exists m,
    output !! i = Some m
    /\ (forall j v, output !! j = Some v -> v <= m)
    /\ (forall j v, output !! j = Some v -> (j < i)%nat -> v < m).
Proof.
  destruct output as [|a x]; [discriminate|]. cbn [argmax]. intros [= <-].
  pose proof (argmax_from_spec x a 0%nat 1%nat ltac:(lia)) as H. cbn zeta in H.
  set (i := argmax_from a 0%nat 1%nat x) in *.
  destruct H as (Hrange & Hle & Hstrict & Hall & Hbefore).
  destruct (decide (i = 0%nat)) as [Hi|Hi].
  - rewrite Hi. exists a. split; [reflexivity|]. split.
    + intros [|j] v Hj; [injection Hj as <-; lra|]. by apply (Hall j).
    + intros j v _ Hj. lia.
  - destruct (Hstrict Hi) as [Hlt Hm]. exists (default 0 (x !! (i - 1)%nat)). split.
    { replace i with (S (i - 1)) at 1 by lia. exact Hm. }
    split.
    + intros [|j] v Hj; [injection Hj as <-; lra|]. by apply (Hall j).
    + intros [|j] v Hj Hji; [injection Hj as <-; lra|].
      apply (Hbefore j); [exact Hj|lia].
Qed.

Lemma argmax_is_first_maximum_witness :
  argmax [0; 1; 1] = Ok 1%nat
  /\ exists m,
       [0; 1; 1] !! 1%nat = Some m
       /\ (forall j v, [0; 1; 1] !! j = Some v -> v <= m)
       /\ (forall j v, [0; 1; 1] !! j = Some v -> (j < 1)%nat -> v < m).
Proof.
  assert (argmax [0; 1; 1] = Ok 1%nat) as Hi.
  { cbn [argmax argmax_from]. destruct (Rlt_dec 0 1) as [_|H]; [|lra].
    destruct (Rlt_dec 1 1) as [H|_]; [lra|reflexivity]. }
  split; [exact Hi|]. exact (argmax_is_first_maximum [0; 1; 1] 1 Hi).
Defined.

(** ** Whole runs *)

Section WholeRuns.

Variable NOTE_ENC_TO_IDX_REF : gmap string Z.
Variable NOTE_ENC_TO_NOTE_STR_REF : gmap string string.
Variable IDX_TO_CHORD_STR_REF : gmap nat string.
Variable CHORD_NOTES : gmap string (list string).
Variable NOTE_FREQUENCIES : gmap string R.
Variable hnn : Play.Network.

Local Abbreviation recurrence := (Play.recurrence NOTE_ENC_TO_IDX_REF hnn).
Local Abbreviation play_comp := (Play.play_comp CHORD_NOTES NOTE_FREQUENCIES).
Local Abbreviation playback :=
  (Play.playback NOTE_ENC_TO_NOTE_STR_REF IDX_TO_CHORD_STR_REF CHORD_NOTES
     NOTE_FREQUENCIES).
Local Abbreviation timestep_body :=
  (Play.timestep_body NOTE_ENC_TO_IDX_REF NOTE_ENC_TO_NOTE_STR_REF
     IDX_TO_CHORD_STR_REF CHORD_NOTES NOTE_FREQUENCIES hnn).
Local Abbreviation play_loop :=
  (Play.play_loop NOTE_ENC_TO_IDX_REF NOTE_ENC_TO_NOTE_STR_REF
     IDX_TO_CHORD_STR_REF CHORD_NOTES NOTE_FREQUENCIES hnn).

Lemma play_loop_raise_app (song rest : list string) :
  forall (t : nat) (s : list R) (e : exn),
    snd (play_loop t s song) = Raise e ->
    play_loop t s (song ++ rest) = play_loop t s song.
Proof.
  induction song as [|note song IH]; intros t s e Hraise; [discriminate|].
  cbn [app Play.play_loop] in Hraise |- *.
  destruct (timestep_body t s note) as [l [s'|e']].
  - rewrite (io_bind_ok _ _ l s' eq_refl) in Hraise.
    rewrite !(io_bind_ok _ _ l s' eq_refl). cbn [snd] in Hraise.
    by rewrite (IH (S t) s' e Hraise).
  - reflexivity.
Qed.

Lemma play_loop_ok_app (song rest : list string) :
  forall (t : nat) (s : list R),
    snd (play_loop t s song) = Ok tt ->
    exists s',
      play_loop t s (song ++ rest)
      = (fst (play_loop t s song) ++ fst (play_loop (t + length song) s' rest),
         snd (play_loop (t + length song) s' rest)).
Proof.
  induction song as [|note song IH]; intros t s Hok.
  - exists s. cbn [app length Play.play_loop mret Play.io_ret fst].
    rewrite Nat.add_0_r. by destruct (play_loop t s rest).
  - cbn [app Play.play_loop length] in Hok |- *.
    destruct (timestep_body t s note) as [l [s1|e]].
    + rewrite (io_bind_ok _ _ l s1 eq_refl) in Hok.
      rewrite !(io_bind_ok _ _ l s1 eq_refl). cbn [fst snd] in Hok |- *.
      destruct (IH (S t) s1 Hok) as [s' ->]. exists s'. cbn [fst snd].
      replace (t + S (length song))%nat with (S t + length song)%nat by lia.
      by rewrite app_assoc.
    + rewrite (io_bind_raise _ _ l e eq_refl) in Hok. discriminate.
Qed.

(** *** The order of the events of a timestep *)

Lemma recurrence_trace (t : nat) (s : list R) (note : string) :
  (fst (recurrence t s note) = [] /\ exists e, snd (recurrence t s note) = Raise e)
  \/ exists b r,
       recurrence t s note
       = ([Play.StateBlended b; Play.StateNormalized (Play.renormalize b)], Ok r).
Proof.
  unfold Play.recurrence.
  destruct (Play.inputs NOTE_ENC_TO_IDX_REF t s note) as [x|e]; [|left; eauto].
  cbn [Play.lift mbind Play.io_bind].
  destruct (Play.call hnn x) as [output|e]; [|left; eauto].
  destruct (Play.blend (Play.state_units_decay hnn) output s) as [b|e];
    [|left; eauto].
  right. eauto.
Qed.

Lemma play_comp_trace (note_str chord : option string) :
  fst (play_comp [note_str] chord) = []
  \/ (exists c, fst (play_comp [note_str] chord) = [Play.ChordSound c])
  \/ (exists c nt,
        fst (play_comp [note_str] chord) = [Play.ChordSound c; Play.NoteSound nt]).
Proof.
  unfold Play.play_comp, Play.play_chord, getitem.
  destruct chord as [c|]; [|by left].
  destruct (CHORD_NOTES !! c) as [chord_notes|]; [|by left].
  cbn [Play.lift mbind Play.io_bind].
  destruct (Play.note_freqs NOTE_FREQUENCIES chord_notes) as [fs|e]; [|by left].
  destruct note_str as [nt|]; [|right; left; by exists c].
  cbn. unfold getitem.
  destruct (NOTE_FREQUENCIES !! nt); [right; right; by exists c, nt|].
  right; left; by exists c.
Qed.

Lemma playback_trace (note : string) (output : list R) :
  fst (playback note output) = []
  \/ exists note_str chord_str,
       fst (playback note output)
       = Play.Printed note_str chord_str :: fst (play_comp [note_str] chord_str).
Proof.
  unfold Play.playback.
  destruct (Play.note_string NOTE_ENC_TO_NOTE_STR_REF note) as [note_str|e];
    [|by left].
  cbn [Play.lift mbind Play.io_bind].
  destruct (argmax output) as [i|e]; [|by left].
  right. exists note_str, (IDX_TO_CHORD_STR_REF !! i). cbn.
  by destruct (play_comp [note_str] (IDX_TO_CHORD_STR_REF !! i)).
Qed.

Lemma timestep_body_counts (t : nat) (s : list R) (note : string) :
  let l := fst (timestep_body t s note) in
  (count_events is_note_sound l <= count_events is_chord_sound l)%nat
  /\ (count_events is_chord_sound l <= count_events is_printed l)%nat
  /\ (count_events is_printed l <= count_events is_normalized l)%nat
  /\ (count_events is_normalized l <= 1)%nat.
Proof.
  cbn zeta.
  destruct (recurrence_trace t s note) as [[Hnil [e He]] | (b & [output s'] & Hrec)].
  - unfold Play.timestep_body. destruct (recurrence t s note) as [l r].
    cbn [fst snd] in *. subst l r. cbn. lia.
  - rewrite (timestep_body_unfold _ _ _ _ _ _ _ _ _ _ _ _ Hrec). cbn [fst].
    destruct (playback_trace note output) as [-> | (note_str & chord_str & ->)].
    + cbn. lia.
    + destruct (play_comp_trace note_str chord_str)
        as [-> | [[c ->] | (c & nt & ->)]]; cbn; lia.
Qed.

End WholeRuns.





Lemma play_loop_counts
    (NOTE_ENC_TO_IDX_REF : gmap string Z)
    (NOTE_ENC_TO_NOTE_STR_REF : gmap string string)
    (IDX_TO_CHORD_STR_REF : gmap nat string)
    (CHORD_NOTES : gmap string (list string))
    (NOTE_FREQUENCIES : gmap string R)
    (hnn : Play.Network) (song : list string) :
  forall (t : nat) (s : list R),
    let l := fst (Play.play_loop NOTE_ENC_TO_IDX_REF NOTE_ENC_TO_NOTE_STR_REF
                    IDX_TO_CHORD_STR_REF CHORD_NOTES NOTE_FREQUENCIES hnn t s song) in
    (count_events is_note_sound l <= count_events is_chord_sound l)%nat
    /\ (count_events is_chord_sound l <= count_events is_printed l)%nat
    /\ (count_events is_printed l <= count_events is_normalized l)%nat
    /\ (count_events is_normalized l <= length song)%nat.
Proof.
  induction song as [|note song IH]; intros t s; cbn zeta.
  - cbn. lia.
  - cbn [Play.play_loop length].
    pose proof (timestep_body_counts NOTE_ENC_TO_IDX_REF NOTE_ENC_TO_NOTE_STR_REF
                  IDX_TO_CHORD_STR_REF CHORD_NOTES NOTE_FREQUENCIES hnn t s note) as Hb.
    cbn zeta in Hb.
    destruct (Play.timestep_body NOTE_ENC_TO_IDX_REF NOTE_ENC_TO_NOTE_STR_REF
                IDX_TO_CHORD_STR_REF CHORD_NOTES NOTE_FREQUENCIES hnn t s note)
      as [l [s'|e]].
    + rewrite (io_bind_ok _ _ l s' eq_refl). cbn [fst] in Hb |- *.
      specialize (IH (S t) s'). cbn zeta in IH. rewrite !count_events_app. lia.
    + rewrite (io_bind_raise _ _ l e eq_refl). cbn [fst] in Hb |- *. lia.
Qed.

